(** * auto_tweet_thread_writer: the thread writer, embedded and verified

    A shallow embedding of [auto_tweet_thread_writer/writer.py]:
    [_summarize_text], [_chunk_text] and [generate_thread].

    Python strings are sequences of Unicode code points; they are modelled
    as lists of code points ([N]), so that [len], slicing, [str.strip],
    [str.split] and concatenation are list operations.  The two external
    collaborators (the page fetch of [scraper.fetch_content] and the
    OpenAI chat completion) are events of a small interaction tree, so
    that "no call is attempted" is a statement about the tree. *)

From Stdlib Require Import Ascii String Numbers.DecimalString.
From Stdlib Require Import List Arith ZArith NArith Lia Bool.
From Equations Require Import Equations.
From Equations.Prop Require Import Logic.
Import ListNotations.

Set Implicit Arguments.

(** ** Python strings *)

Module PyStr.

(** A character is a Unicode code point. *)
Definition char := N.
Definition pstr := list char.

(** An ASCII literal of the source, as code points. *)
Definition lit (s : string) : pstr :=
  map N_of_ascii (list_ascii_of_string s).
Arguments lit s%_string.

Definition space : char := 32%N.
Definition dot : char := 46%N.
Definition newline : char := 10%N.

(** [str.isspace] for one character: the code points [str.strip] and
    [str.split] treat as whitespace. *)
Definition is_space (c : char) : bool :=
  ((9 <=? c) && (c <=? 13) || (28 <=? c) && (c <=? 32)
   || (c =? 133) || (c =? 160) || (c =? 5760)
   || (8192 <=? c) && (c <=? 8202)
   || (c =? 8232) || (c =? 8233) || (c =? 8239) || (c =? 8287)
   || (c =? 12288))%N.

(** Truthiness of a string: [if s:] holds when [s] is not empty. *)
Definition truthy (s : pstr) : bool :=
  match s with [] => false | _ :: _ => true end.

(** [s.lstrip()], [s.rstrip()], [s.strip()]. *)
Fixpoint lstrip (s : pstr) : pstr :=
  match s with
  | [] => []
  | c :: s' => if is_space c then lstrip s' else s
  end.

Definition rstrip (s : pstr) : pstr := rev (lstrip (rev s)).

Definition strip (s : pstr) : pstr := rstrip (lstrip s).

(** [sep.join(items)]. *)
Fixpoint join (sep : pstr) (items : list pstr) : pstr :=
  match items with
  | [] => []
  | [x] => x
  | x :: rest => x ++ sep ++ join sep rest
  end.

(** Puts one more character in front of the first fragment. *)
Definition push_front (c : char) (frags : list pstr) : list pstr :=
  match frags with
  | [] => [[c]]
  | f :: fs => (c :: f) :: fs
  end.

(** [s.split(sep)] for a separator of two characters [a b]: the
    occurrences are found from the left and do not overlap; the result
    always has one fragment more than there are occurrences. *)
Fixpoint split2 (a b : char) (s : pstr) : list pstr :=
  match s with
  | [] => [[]]
  | c :: s' =>
      match s' with
      | d :: s'' =>
          if ((c =? a) && (d =? b))%N then [] :: split2 a b s''
          else push_front c (split2 a b s')
      | [] => [[c]]
      end
  end.

(** [s.split()]: the maximal runs of characters that are not
    whitespace, in order. [cur] is the run being read. *)
Fixpoint split_ws_from (cur : pstr) (s : pstr) : list pstr :=
  match s with
  | [] => if truthy cur then [cur] else []
  | c :: s' =>
      if is_space c
      then (if truthy cur then cur :: split_ws_from [] s'
            else split_ws_from [] s')
      else split_ws_from (cur ++ [c]) s'
  end.

Definition split_ws (s : pstr) : list pstr := split_ws_from [] s.

(** [str(n)] for an integer. *)
Definition str_of_int (n : Z) : pstr :=
  lit (NilZero.string_of_int (Z.to_int n)).

(** [l[:k]]: a negative [k] counts from the end. *)
Definition slice_to (A : Type) (k : Z) (l : list A) : list A :=
  if (k <? 0)%Z
  then firstn (Z.to_nat (Z.of_nat (length l) + k)) l
  else firstn (Z.to_nat k) l.

(** [[x] * n]: no element when [n] is negative. *)
Definition times (A : Type) (x : A) (n : Z) : list A :=
  repeat x (Z.to_nat n).

(** [l.insert(i, x)] for [i >= 0]: at the end when [i] is too large. *)
Definition insert_at (A : Type) (i : nat) (x : A) (l : list A) : list A :=
  firstn i l ++ x :: skipn i l.

(** [l.pop(i)] for [0 <= i < len(l)]: the list without position [i]. *)
Definition remove_at (A : Type) (i : nat) (l : list A) : list A :=
  firstn i l ++ skipn (S i) l.

Lemma insert_at_length (A : Type) i (x : A) l :
  length (insert_at i x l) = S (length l).
Proof.
  unfold insert_at. rewrite length_app. cbn [length].
  rewrite <- (firstn_skipn i l) at 3. rewrite length_app. lia.
Qed.

Lemma remove_at_length (A : Type) i (l : list A) :
  i < length l -> S (length (remove_at i l)) = length l.
Proof.
  intros Hi. unfold remove_at.
  rewrite length_app, length_firstn, length_skipn. lia.
Qed.

(** A string that [strip] leaves as it is. *)
Definition stripped (s : pstr) : Prop := strip s = s.

(** A string with a character that is not whitespace. *)
Definition has_ink (s : pstr) : bool := existsb (fun c => negb (is_space c)) s.

End PyStr.
Import PyStr.

Example strip_ex : strip (lit "  a b. ") = lit "a b.".
Proof. reflexivity. Qed.

Example split2_ex :
  split2 dot space (lit "A. B. C.") = [lit "A"; lit "B"; lit "C."].
Proof. reflexivity. Qed.

Example split2_ex_edge :
  split2 dot space (lit ". . .") = [[]; []; lit "."].
Proof. reflexivity. Qed.

Example split_ws_ex :
  split_ws (lit "  one two   three ") = [lit "one"; lit "two"; lit "three"].
Proof. reflexivity. Qed.

Example str_of_int_ex :
  str_of_int 0 = lit "0" /\ str_of_int 20 = lit "20"
  /\ str_of_int (-3)%Z = lit "-3".
Proof. repeat split; reflexivity. Qed.

(** ** Exceptions *)

(** The exceptions that can leave [generate_thread], by class.
    [ValueError]: an instance of [ValueError] or of a subclass of it; the
    module raises one itself, the built-ins [max] and [min] raise one on
    an empty range, and [fetch_content] lets through the ones of
    [requests] (its [MissingSchema], [InvalidSchema] and [InvalidURL]
    derive from [ValueError]). [FetchError]: any other exception that
    [fetch_content] lets through. *)
Inductive exn : Type :=
| ValueError (msg : string)
| FetchError (detail : string).

Definition result (A : Type) : Type := (exn + A)%type.

(** ** [_chunk_text] *)

Module Chunk.

(** One round of the [for sent in sentences] loop on the pair
    [(parts, current)]. *)
Definition pack_step (st : list pstr * pstr) (sent : pstr)
  : list pstr * pstr :=
  let '(parts, current) := st in
  let seg := strip sent in
  if negb (truthy seg) then st
  else
    let tentative :=
      if truthy current then current ++ lit ". " ++ seg else seg in
    if 260 <? length tentative + 15
    then (parts ++ [current], seg)
    else (parts, tentative).

(** The whole loop, then [if current: parts.append(current)]. *)
Definition pack (sentences : list pstr) : list pstr :=
  let '(parts, current) := fold_left pack_step sentences ([], []) in
  if truthy current then parts ++ [current] else parts.

(** The scan of [max(range(n), key=...)] and [min(range(n), key=...)]
    after the first element: [i] is the index under inspection, [best]
    the index kept so far and [bestk] its key. A later index replaces
    the kept one only when its key is strictly [better]. *)
Fixpoint scan (better : nat -> nat -> bool) (keys : list nat)
         (i best bestk : nat) : nat :=
  match keys with
  | [] => best
  | k :: ks =>
      if better k bestk then scan better ks (S i) i k
      else scan better ks (S i) best bestk
  end.

(** [max(range(len(keys)), key=lambda i: keys[i])]; [None] stands for
    the [ValueError] of an empty range. *)
Definition max_index (keys : list nat) : option nat :=
  match keys with
  | [] => None
  | k :: ks => Some (scan (fun k bestk => bestk <? k) ks 1 0 k)
  end.

(** [min(range(len(keys)), key=lambda i: keys[i])]. *)
Definition min_index (keys : list nat) : option nat :=
  match keys with
  | [] => None
  | k :: ks => Some (scan (fun k bestk => k <? bestk) ks 1 0 k)
  end.

(** The body of [while len(parts) < n_parts]. *)
Definition split_longest (parts : list pstr) : result (list pstr) :=
  match max_index (map (@length char) parts) with
  | None => inl (ValueError "max() arg is an empty sequence")
  | Some idx =>
      let part := nth idx parts [] in
      let parts1 := remove_at idx parts in
      let half := length part / 2 in
      let parts2 := insert_at idx (strip (firstn half part)) parts1 in
      inr (insert_at (idx + 1) (strip (skipn half part)) parts2)
  end.

(** The keys of the merge loop: [len(parts[i]) + len(parts[i+1])] for
    [i] in [range(len(parts) - 1)]. *)
Definition pair_keys (parts : list pstr) : list nat :=
  map (fun i => length (nth i parts []) + length (nth (S i) parts []))
      (seq 0 (length parts - 1)).

(** The body of [while len(parts) > n_parts] after its [break] test. *)
Definition merge_smallest (parts : list pstr) : result (list pstr) :=
  match min_index (pair_keys parts) with
  | None => inl (ValueError "min() arg is an empty sequence")
  | Some idx =>
      let merged :=
        strip (nth idx parts [] ++ lit " " ++ nth (idx + 1) parts []) in
      inr (firstn idx parts ++ merged :: skipn (idx + 2) parts)
  end.

Lemma scan_bound better keys : forall i best bestk,
  best < i -> scan better keys i best bestk < i + length keys.
Proof.
  induction keys as [|k ks IH]; intros i best bestk Hb; simpl.
  - lia.
  - destruct (better k bestk).
    + specialize (IH (S i) i k). lia.
    + specialize (IH (S i) best bestk). lia.
Qed.

Lemma max_index_bound keys idx :
  max_index keys = Some idx -> idx < length keys.
Proof.
  destruct keys as [|k ks]; simpl; [discriminate|].
  intros [= <-].
  pose proof (scan_bound (fun k0 bestk => bestk <? k0) ks (i:=1) (best:=0) k).
  lia.
Qed.

Lemma min_index_bound keys idx :
  min_index keys = Some idx -> idx < length keys.
Proof.
  destruct keys as [|k ks]; simpl; [discriminate|].
  intros [= <-].
  pose proof (scan_bound (fun k0 bestk => k0 <? bestk) ks (i:=1) (best:=0) k).
  lia.
Qed.

Lemma split_longest_length parts parts' :
  split_longest parts = inr parts' -> length parts' = S (length parts).
Proof.
  unfold split_longest.
  destruct (max_index (map (@length char) parts)) as [idx|] eqn:E;
    [|discriminate].
  apply max_index_bound in E. rewrite length_map in E.
  intros [= <-]. rewrite !insert_at_length.
  pose proof (remove_at_length parts E). lia.
Qed.

Lemma merge_smallest_length parts parts' :
  merge_smallest parts = inr parts' -> S (length parts') = length parts.
Proof.
  unfold merge_smallest.
  destruct (min_index (pair_keys parts)) as [idx|] eqn:E; [|discriminate].
  apply min_index_bound in E. unfold pair_keys in E.
  rewrite length_map, length_seq in E.
  intros [= <-].
  rewrite length_app, length_firstn. simpl. rewrite length_skipn. lia.
Qed.

(** [while len(parts) < n_parts]: each round adds one part. *)
Equations? split_loop (n_parts : Z) (parts : list pstr)
  : result (list pstr)
  by wf (Z.to_nat (n_parts - Z.of_nat (length parts))) lt :=
  split_loop n_parts parts
    with inspect (Z.of_nat (length parts) <? n_parts)%Z := {
    | exist _ false _ := inr parts
    | exist _ true Hlt with inspect (split_longest parts) := {
      | exist _ (inl e) _ := inl e
      | exist _ (inr parts') Hs := split_loop n_parts parts' } }.
Proof.
  apply split_longest_length in Hs. apply Z.ltb_lt in Hlt. lia.
Qed.

(** [while len(parts) > n_parts], with its [break] when fewer than two
    parts are left: each round removes one part. *)
Equations? merge_loop (n_parts : Z) (parts : list pstr)
  : result (list pstr)
  by wf (length parts) lt :=
  merge_loop n_parts parts
    with inspect (n_parts <? Z.of_nat (length parts))%Z := {
    | exist _ false _ := inr parts
    | exist _ true _ with inspect (length parts <? 2) := {
      | exist _ true _ := inr parts
      | exist _ false _ with inspect (merge_smallest parts) := {
        | exist _ (inl e) _ := inl e
        | exist _ (inr parts') Hm := merge_loop n_parts parts' } } }.
Proof.
  apply merge_smallest_length in Hm. lia.
Qed.

(** [_chunk_text(summary, n_parts)]. *)
Definition _chunk_text (summary : pstr) (n_parts : Z)
  : result (list pstr) :=
  let summary := strip summary in
  if negb (truthy summary) then inr (times [] n_parts)
  else
    let sentences := split2 dot space summary in
    let parts := pack sentences in
    match split_loop n_parts parts with
    | inl e => inl e
    | inr parts =>
        match merge_loop n_parts parts with
        | inl e => inl e
        | inr parts => inr (slice_to n_parts parts)
        end
    end.

End Chunk.
Import Chunk.

Example chunk_abc :
  _chunk_text (lit "A. B. C.") 3 = inr [lit "A."; lit "B"; lit ". C."].
Proof. vm_compute. reflexivity. Qed.

(** ** External calls *)

Module Ext.

(** The calls that leave the module: [fetch_content(url)], which gives
    the title, the description and the text of the page or raises an
    exception of either class, and
    the body of the [try] block of [_summarize_text] (the chat
    completion with model [gpt-3.5-turbo]), which gives the content
    of the first choice, or nothing when anything in it raises. *)
Inductive call : Type -> Type :=
| FetchContent (url : pstr) : call (result (pstr * pstr * pstr))
| ChatCompletion (api_key prompt : pstr) : call (option pstr).

(** A computation: a result, or a call and what to do with its answer. *)
Inductive prog (R : Type) : Type :=
| Ret (r : R)
| Vis (X : Type) (c : call X) (k : X -> prog R).
Arguments Ret {R} r.
Arguments Vis {R X} c k.

Fixpoint bind (A B : Type) (p : prog A) (f : A -> prog B) : prog B :=
  match p with
  | Ret a => f a
  | Vis c k => Vis c (fun x => bind (k x) f)
  end.

Definition trigger (X : Type) (c : call X) : prog X := Vis c Ret.

(** The outside world: an answer to every call. *)
Definition world : Type := forall X : Type, call X -> X.

Fixpoint run (R : Type) (w : world) (p : prog R) : R :=
  match p with
  | Ret r => r
  | Vis c k => run w (k (w _ c))
  end.

(** A call that was made, without its answer type. *)
Inductive made : Type :=
| Made (X : Type) (c : call X).

(** The calls a computation makes in a world, in order. *)
Fixpoint calls (R : Type) (w : world) (p : prog R) : list made :=
  match p with
  | Ret _ => []
  | Vis c k => Made c :: calls w (k (w _ c))
  end.

End Ext.
Import Ext.

Notation "x <- c ;; k" := (bind c (fun x => k))
  (at level 61, c at next level, right associativity).

(** ** [_summarize_text] and [generate_thread] *)

Module Writer.

(** The prompt built by the f-string of [_summarize_text]. *)
Definition prompt_of (text : pstr) (target_words : Z) : pstr :=
  lit "Summarise the following text into a concise overview. Focus on the key "
  ++ lit "ideas and eliminate unnecessary detail. Limit the summary to around "
  ++ str_of_int target_words ++ lit " words." ++ [newline; newline]
  ++ text ++ [newline; newline] ++ lit "Summary:".

(** [_summarize_text(text, openai_api_key, target_words)]. *)
Definition _summarize_text (text : pstr) (openai_api_key : option pstr)
           (target_words : Z) : prog pstr :=
  let words := split_ws text in
  match words with
  | [] => Ret []
  | _ :: _ =>
      let fallback := join (lit " ") (slice_to target_words words) in
      match openai_api_key with
      | Some key =>
          if truthy key then
            r <- trigger (ChatCompletion key (prompt_of text target_words)) ;;
            match r with
            | Some content => Ret (strip content)
            | None => Ret fallback
            end
          else Ret fallback
      | None => Ret fallback
      end
  end.

(** The list [emojis] of [generate_thread], with the code points the
    source file holds. *)
Definition emojis : list pstr :=
  [ [287; 376; 353; 8364]; [287; 376; 8217; 161]; [287; 376; 8220; 338];
    [287; 376; 8221]; [287; 376; 8221; 165]; [287; 376; 8220; 732];
    [226; 339; 8230]; [287; 376; 338; 376]; [287; 376; 175];
    [287; 376; 167; 160] ]%N.

(** What follows the title in the hook of the first tweet. *)
Definition hook_suffix : pstr :=
  [32; 226; 8364; 8220; 32; 104; 101; 114; 101; 226; 8364; 8482; 115; 32;
   119; 104; 97; 116; 32; 121; 111; 117; 226; 8364; 8482; 108; 108; 32;
   108; 101; 97; 114; 110; 58]%N.

(** [enumerate(l, start)]. *)
Fixpoint enumerate (A : Type) (start : nat) (l : list A) : list (nat * A) :=
  match l with
  | [] => []
  | x :: l' => (start, x) :: enumerate (S start) l'
  end.

(** The header of tweet [i]. *)
Definition header (max_tweets : Z) (i : nat) : pstr :=
  let emoji := nth ((i - 1) mod length emojis) emojis [] in
  emoji ++ lit " " ++ str_of_int (Z.of_nat i) ++ lit "/"
        ++ str_of_int max_tweets ++ lit " ".

(** One round of the [for i, part in enumerate(parts, start=1)] loop:
    the tweet appended for [(i, part)]. *)
Definition tweet (chosen_title : pstr) (max_tweets : Z)
           (i : nat) (part : pstr) : pstr :=
  if i =? 1 then
    let hook := strip chosen_title ++ hook_suffix in
    let body := strip part in
    header max_tweets i ++ hook ++ [newline] ++ body
  else header max_tweets i ++ strip part.

(** The formatting loop of [generate_thread]. *)
Definition format_tweets (parts : list pstr) (chosen_title : pstr)
           (max_tweets : Z) : list pstr :=
  fold_left
    (fun tweets '(i, part) => tweets ++ [tweet chosen_title max_tweets i part])
    (enumerate 1 parts) [].

(** [a or b] for an optional string [a]. *)
Definition or_else (a : option pstr) (b : pstr) : pstr :=
  match a with
  | Some s => if truthy s then s else b
  | None => b
  end.

(** [generate_thread(url, openai_api_key, title, max_tweets)]. *)
Definition generate_thread (url : pstr) (openai_api_key : option pstr)
           (title : option pstr) (max_tweets : Z)
  : prog (result (list pstr)) :=
  if ((max_tweets <? 3) || (20 <? max_tweets))%Z
  then Ret (inl (ValueError "max_tweets must be between 3 and 20"))
  else
    fetched <- trigger (FetchContent url) ;;
    match fetched with
    | inl exc => Ret (inl exc)
    | inr (page_title, description, content) =>
        let chosen_title := or_else title (or_else (Some page_title) url) in
        let base_text := if truthy content then content else description in
        summary <- _summarize_text base_text openai_api_key 300 ;;
        match _chunk_text summary max_tweets with
        | inl e => Ret (inl e)
        | inr parts =>
            Ret (inr (format_tweets parts chosen_title max_tweets))
        end
    end.

End Writer.
Import Writer.

(** ** The claims as the specification words them *)

Module Spec.

(** "The first [targetWords] whitespace-delimited tokens of [text],
    joined by single spaces (all tokens, when [text] has fewer)". *)
Definition first_words (text : pstr) (targetWords : Z) : pstr :=
  join (lit " ") (firstn (Z.to_nat targetWords) (split_ws text)).

(** "The character budget": [length(segment) + 15 <= 260]. *)
Definition fits (segment : pstr) : Prop := length segment + 15 <= 260.



End Spec.
Import Spec.

(** ** The two loops, unfolded once *)

Section LoopEquations.

Lemma split_loop_unfold n_parts parts :
  split_loop n_parts parts =
  if (Z.of_nat (length parts) <? n_parts)%Z
  then match split_longest parts with
       | inl e => inl e
       | inr parts' => split_loop n_parts parts'
       end
  else inr parts.
Proof.
  funelim (split_loop n_parts parts);
    try match goal with E : (_ <? _)%Z = _ |- _ => rewrite E end;
    try match goal with E : split_longest _ = _ |- _ => rewrite E end;
    reflexivity.
Qed.

Lemma merge_loop_unfold n_parts parts :
  merge_loop n_parts parts =
  if (n_parts <? Z.of_nat (length parts))%Z
  then if length parts <? 2 then inr parts
       else match merge_smallest parts with
            | inl e => inl e
            | inr parts' => merge_loop n_parts parts'
            end
  else inr parts.
Proof.
  funelim (merge_loop n_parts parts);
    try match goal with E : (_ <? _)%Z = _ |- _ => rewrite E end;
    try match goal with E : (_ <? 2) = _ |- _ => rewrite E end;
    try match goal with E : merge_smallest _ = _ |- _ => rewrite E end;
    reflexivity.
Qed.

End LoopEquations.

(** ** Facts about [strip] *)

Section StripFacts.

(** A string that does not start with whitespace. *)
Definition head_ok (s : pstr) : Prop :=
  match s with
  | [] => True
  | c :: _ => is_space c = false
  end.

Lemma lstrip_head_ok s : head_ok (lstrip s).
Proof.
  induction s as [|c s IH]; simpl; [exact I|].
  destruct (is_space c) eqn:E; [exact IH | exact E].
Qed.

Lemma lstrip_fixed s : head_ok s -> lstrip s = s.
Proof. destruct s as [|c s]; simpl; [easy|]. now intros ->. Qed.

Lemma lstrip_split s :
  exists pre, s = pre ++ lstrip s /\ forallb is_space pre = true.
Proof.
  induction s as [|c s (pre & Hs & Hpre)]; simpl.
  - now exists [].
  - destruct (is_space c) eqn:E.
    + exists (c :: pre). simpl. rewrite E, Hpre. split; [now f_equal|easy].
    + now exists [].
Qed.

Lemma lstrip_length s : length (lstrip s) <= length s.
Proof.
  destruct (lstrip_split s) as (pre & Hs & _).
  rewrite Hs at 2. rewrite length_app. lia.
Qed.

Lemma strip_length s : length (strip s) <= length s.
Proof.
  unfold strip, rstrip. rewrite length_rev.
  etransitivity; [apply lstrip_length|]. rewrite length_rev.
  apply lstrip_length.
Qed.

Lemma has_ink_app a b : has_ink (a ++ b) = has_ink a || has_ink b.
Proof. apply existsb_app. Qed.

Lemma has_ink_rev s : has_ink (rev s) = has_ink s.
Proof.
  induction s as [|c s IH]; simpl; [reflexivity|].
  rewrite has_ink_app, IH. simpl. rewrite orb_false_r. apply orb_comm.
Qed.

Lemma has_ink_spaces s : forallb is_space s = true <-> has_ink s = false.
Proof.
  induction s as [|c s IH]; simpl; [easy|].
  rewrite andb_true_iff, orb_false_iff, negb_false_iff. tauto.
Qed.

Lemma has_ink_lstrip s : has_ink (lstrip s) = has_ink s.
Proof.
  induction s as [|c s IH]; simpl; [reflexivity|].
  destruct (is_space c) eqn:E; simpl; [exact IH | now rewrite E].
Qed.

Lemma has_ink_strip s : has_ink (strip s) = has_ink s.
Proof.
  unfold strip, rstrip.
  now rewrite has_ink_rev, has_ink_lstrip, has_ink_rev, has_ink_lstrip.
Qed.


Lemma lstrip_no_ink s : has_ink s = false -> lstrip s = [].
Proof.
  induction s as [|c s IH]; simpl; [reflexivity|].
  rewrite orb_false_iff, negb_false_iff. now intros [-> ?%IH].
Qed.

(** [if s.strip():] tests whether [s] has a character that is not
    whitespace. *)
Lemma truthy_strip s : truthy (strip s) = has_ink s.
Proof.
  destruct (has_ink s) eqn:E.
  - rewrite <- has_ink_strip in E. now destruct (strip s).
  - unfold strip. now rewrite (lstrip_no_ink _ E).
Qed.

Lemma head_ok_app a b : head_ok a -> a <> [] -> head_ok (a ++ b).
Proof. now destruct a. Qed.

Lemma strip_head_ok s : head_ok (strip s).
Proof.
  unfold strip, rstrip.
  destruct (lstrip_split (rev (lstrip s))) as (pre & Hs & _).
  pose proof (lstrip_head_ok s) as Hh.
  set (t := lstrip s) in *. set (u := lstrip (rev t)) in *.
  assert (Ht : t = rev u ++ rev pre).
  { rewrite <- rev_app_distr, <- Hs. now rewrite rev_involutive. }
  destruct (rev u) as [|c r] eqn:Eu; [exact I|].
  rewrite Ht in Hh. exact Hh.
Qed.

Lemma strip_last_ok s : head_ok (rev (strip s)).
Proof.
  unfold strip, rstrip. rewrite rev_involutive. apply lstrip_head_ok.
Qed.

Lemma stripped_iff s : stripped s <-> head_ok s /\ head_ok (rev s).
Proof.
  split.
  - intros <-. split; [apply strip_head_ok | apply strip_last_ok].
  - intros [Hh Hl]. unfold stripped, strip, rstrip.
    rewrite (lstrip_fixed _ Hh), (lstrip_fixed _ Hl).
    apply rev_involutive.
Qed.

Lemma stripped_strip s : stripped (strip s).
Proof.
  apply stripped_iff. split; [apply strip_head_ok | apply strip_last_ok].
Qed.

Lemma stripped_nil : stripped [].
Proof. reflexivity. Qed.

(** Joining two trimmed, non-empty strings with anything in between
    gives a trimmed string. *)
Lemma stripped_glue a sep b :
  stripped a -> stripped b -> a <> [] -> b <> [] ->
  stripped (a ++ sep ++ b).
Proof.
  intros [Ha _]%stripped_iff [_ Hb]%stripped_iff Na Nb.
  apply stripped_iff. split.
  - now apply head_ok_app.
  - rewrite !rev_app_distr, <- app_assoc. apply head_ok_app; [exact Hb|].
    intros E. apply Nb. apply (f_equal (@rev _)) in E.
    now rewrite rev_involutive in E.
Qed.


End StripFacts.

(** ** Facts about sentence splitting and greedy packing *)

Section PackFacts.

Lemma last_push_front c frags :
  has_ink (last frags []) = true ->
  has_ink (last (push_front c frags) []) = true.
Proof.
  destruct frags as [|f [|g fs]]; simpl; try easy.
  intros ->. apply orb_true_r.
Qed.

(** The last fragment of a summary that ends with a character that is
    not whitespace has such a character: the separator ends with a
    space, so it cannot end the summary. *)
Lemma split2_last_ink n : forall s,
  length s <= n -> s <> [] -> is_space (last s space) = false ->
  has_ink (last (split2 dot space s) []) = true.
Proof.
  induction n as [|n IH]; intros s Hn Hs Hl.
  - destruct s; [easy | simpl in Hn; lia].
  - destruct s as [|c [|d s'']]; [easy| |].
    + simpl in *. now rewrite Hl.
    + change (split2 dot space (c :: d :: s'')) with
        (if ((c =? dot) && (d =? space))%N
         then [] :: split2 dot space s''
         else push_front c (split2 dot space (d :: s''))).
      destruct ((c =? dot) && (d =? space))%N eqn:E.
      * apply andb_true_iff in E as [_ Ed%N.eqb_eq]. subst d.
        destruct s'' as [|e s3]; [simpl in Hl; discriminate|].
        assert (H : has_ink (last (split2 dot space (e :: s3)) []) = true).
        { apply IH; [simpl in *; lia | easy | exact Hl]. }
        destruct (split2 dot space (e :: s3)) eqn:E2; [|exact H].
        simpl in H. discriminate.
      * apply last_push_front. apply IH; [simpl in *; lia | easy | exact Hl].
Qed.

Lemma head_ok_last s :
  s <> [] -> head_ok (rev s) -> is_space (last s space) = false.
Proof.
  destruct s as [|c s _] using rev_ind; [easy|]. intros _.
  rewrite rev_app_distr, last_last. simpl. easy.
Qed.

Lemma split2_strip_last summary :
  has_ink summary = true ->
  exists init f, split2 dot space (strip summary) = init ++ [f]
                 /\ has_ink f = true.
Proof.
  intros Hink.
  assert (Hne : strip summary <> []).
  { intros E. rewrite <- truthy_strip, E in Hink. discriminate. }
  pose proof (split2_last_ink (le_n _) Hne
                (head_ok_last Hne (strip_last_ok summary))) as H.
  destruct (split2 dot space (strip summary)) as [|f0 fs] eqn:E
    using rev_ind; [discriminate|].
  clear IHfs. rewrite last_last in H. now exists fs, f0.
Qed.

Lemma pack_step_current_ink st f :
  has_ink f = true -> snd (pack_step st f) <> [].
Proof.
  intros Hf. destruct st as [parts current]. unfold pack_step.
  rewrite truthy_strip, Hf. cbn [negb].
  assert (Hs : strip f <> []).
  { intros E. rewrite <- truthy_strip, E in Hf. discriminate. }
  destruct (truthy current) eqn:Ec.
  - destruct (_ <? _); simpl; [exact Hs|].
    destruct current; [discriminate | easy].
  - destruct (_ <? _); simpl; exact Hs.
Qed.

(** A summary that is not all whitespace is packed into at least one
    part. *)
Lemma pack_nonempty summary :
  has_ink summary = true -> pack (split2 dot space (strip summary)) <> [].
Proof.
  intros (init & f & -> & Hf)%split2_strip_last.
  unfold pack. rewrite fold_left_app. simpl.
  pose proof (@pack_step_current_ink
                (fold_left pack_step init ([], [])) f Hf) as H.
  destruct (pack_step _ f) as [parts current]. simpl in H.
  destruct current; [easy|]. simpl. now destruct parts.
Qed.

(** An invariant of the packing loop carries over to its result: [P]
    for the parts closed so far, [C] for [current], as long as every
    sentence satisfies [Q]. *)
Lemma pack_invariant (P C Q : pstr -> Prop) sentences :
  C [] ->
  (forall parts current sent,
      Q sent -> Forall P parts -> C current ->
      Forall P (fst (pack_step (parts, current) sent))
      /\ C (snd (pack_step (parts, current) sent))) ->
  Forall Q sentences ->
  Forall P (fst (fold_left pack_step sentences ([], [])))
  /\ C (snd (fold_left pack_step sentences ([], []))).
Proof.
  intros C0 Hstep HQ.
  cut (forall st, Forall P (fst st) -> C (snd st) ->
                  Forall P (fst (fold_left pack_step sentences st))
                  /\ C (snd (fold_left pack_step sentences st))).
  { intros H. apply H; simpl; [constructor | exact C0]. }
  induction HQ as [|sent rest Hq _ IH]; intros [parts current] Hp Hc; simpl.
  - now split.
  - simpl in Hp, Hc. destruct (Hstep parts current sent Hq Hp Hc) as [H1 H2].
    apply IH; assumption.
Qed.

Lemma pack_Forall (P C Q : pstr -> Prop) sentences :
  C [] ->
  (forall parts current sent,
      Q sent -> Forall P parts -> C current ->
      Forall P (fst (pack_step (parts, current) sent))
      /\ C (snd (pack_step (parts, current) sent))) ->
  (forall current, C current -> truthy current = true -> P current) ->
  Forall Q sentences ->
  Forall P (pack sentences).
Proof.
  intros C0 Hstep Hend HQ. unfold pack.
  destruct (@pack_invariant P C Q sentences C0 Hstep HQ) as [H1 H2].
  destruct (fold_left pack_step sentences ([], [])) as [parts current].
  simpl in *. destruct (truthy current) eqn:E; [|assumption].
  apply Forall_app. split; [assumption|]. constructor; [|constructor].
  now apply Hend.
Qed.

End PackFacts.

(** ** Facts about the two normalisation loops *)

Section LoopFacts.

Variable P : pstr -> Prop.

(** [P] survives cutting a part in two trimmed halves. *)
Definition halving : Prop :=
  forall p k, P p -> P (strip (firstn k p)) /\ P (strip (skipn k p)).

(** [P] survives joining two parts with a space and trimming. *)
Definition merging : Prop :=
  forall a b, P a -> P b -> P (strip (a ++ lit " " ++ b)).

Lemma Forall_cut i (l : list pstr) :
  Forall P l -> Forall P (firstn i l) /\ Forall P (skipn i l).
Proof.
  intros Hl. apply Forall_app. now rewrite firstn_skipn.
Qed.

Lemma Forall_insert_at i x (l : list pstr) :
  P x -> Forall P l -> Forall P (insert_at i x l).
Proof.
  intros Hx Hl. unfold insert_at. apply Forall_app.
  destruct (Forall_cut i Hl). split; [assumption|]. now constructor.
Qed.

Lemma Forall_remove_at i (l : list pstr) :
  Forall P l -> Forall P (remove_at i l).
Proof.
  intros Hl. unfold remove_at. apply Forall_app. split.
  - apply (Forall_cut i Hl).
  - apply (Forall_cut (S i) Hl).
Qed.

Lemma Forall_nth_in i (l : list pstr) :
  i < length l -> Forall P l -> P (nth i l []).
Proof.
  intros Hi Hl. rewrite Forall_forall in Hl. apply Hl. now apply nth_In.
Qed.

Lemma split_longest_defined parts :
  parts <> [] -> exists parts', split_longest parts = inr parts'.
Proof.
  intros Hne. unfold split_longest.
  destruct parts as [|p ps]; [easy|]. simpl. eauto.
Qed.

Lemma split_longest_Forall parts parts' :
  halving -> Forall P parts -> split_longest parts = inr parts' ->
  Forall P parts'.
Proof.
  intros Hh Hp. unfold split_longest.
  destruct (max_index (map (@length char) parts)) as [idx|] eqn:E;
    [|discriminate].
  apply max_index_bound in E. rewrite length_map in E.
  intros [= <-].
  destruct (Hh (nth idx parts []) (length (nth idx parts []) / 2)
               (Forall_nth_in E Hp)) as [H1 H2].
  apply Forall_insert_at; [exact H2|].
  apply Forall_insert_at; [exact H1|].
  now apply Forall_remove_at.
Qed.

Lemma merge_smallest_defined parts :
  2 <= length parts -> exists parts', merge_smallest parts = inr parts'.
Proof.
  intros Hlen. unfold merge_smallest, pair_keys.
  destruct (length parts - 1) as [|m] eqn:E; [lia|].
  simpl. eauto.
Qed.

Lemma merge_smallest_Forall parts parts' :
  merging -> Forall P parts -> merge_smallest parts = inr parts' ->
  Forall P parts'.
Proof.
  intros Hm Hp. unfold merge_smallest.
  destruct (min_index (pair_keys parts)) as [idx|] eqn:E; [|discriminate].
  apply min_index_bound in E. unfold pair_keys in E.
  rewrite length_map, length_seq in E.
  intros [= <-]. apply Forall_app. split; [apply (Forall_cut idx Hp)|].
  constructor; [|apply (Forall_cut (idx + 2) Hp)].
  apply Hm; apply Forall_nth_in; (lia || assumption).
Qed.

(** The split loop returns; it adds parts up to [n_parts] and keeps [P]. *)
Lemma split_loop_spec n_parts : halving -> forall k parts,
  Z.to_nat (n_parts - Z.of_nat (length parts)) <= k ->
  parts <> [] -> Forall P parts ->
  exists parts', split_loop n_parts parts = inr parts'
                 /\ Forall P parts'
                 /\ Z.of_nat (length parts')
                    = Z.max (Z.of_nat (length parts)) n_parts.
Proof.
  intros Hh. induction k as [|k IH]; intros parts Hk Hne Hp;
    rewrite split_loop_unfold;
    destruct (Z.of_nat (length parts) <? n_parts)%Z eqn:E;
    try (apply Z.ltb_ge in E; exists parts; repeat split; [assumption|lia]);
    apply Z.ltb_lt in E; [lia|].
  destruct (split_longest_defined Hne) as [parts1 H1]. rewrite H1.
  pose proof (split_longest_length _ H1) as Hlen.
  destruct (IH parts1) as (parts' & H2 & H3 & H4).
  - lia.
  - intros ->. discriminate.
  - exact (split_longest_Forall Hh Hp H1).
  - exists parts'. repeat split; [assumption..|lia].
Qed.

(** The merge loop returns; it removes parts down to [n_parts], or to
    one part when [n_parts] is smaller, and keeps [P]. *)
Lemma merge_loop_spec n_parts : merging -> forall k parts,
  length parts <= k -> Forall P parts ->
  exists parts', merge_loop n_parts parts = inr parts'
                 /\ Forall P parts'
                 /\ Z.of_nat (length parts')
                    = Z.min (Z.of_nat (length parts))
                            (Z.max n_parts (Z.min 1 (Z.of_nat (length parts)))).
Proof.
  intros Hm. induction k as [|k IH]; intros parts Hk Hp;
    rewrite merge_loop_unfold;
    destruct (n_parts <? Z.of_nat (length parts))%Z eqn:E;
    try (apply Z.ltb_ge in E; exists parts; repeat split; [assumption|lia]);
    apply Z.ltb_lt in E;
    (destruct (length parts <? 2) eqn:E2;
     [apply Nat.ltb_lt in E2; exists parts; repeat split; [assumption|lia]
     |apply Nat.ltb_ge in E2]); [lia|].
  destruct (merge_smallest_defined _ E2) as [parts1 H1]. rewrite H1.
  pose proof (merge_smallest_length _ H1) as Hlen.
  destruct (IH parts1) as (parts' & H2 & H3 & H4).
  - lia.
  - exact (merge_smallest_Forall Hm Hp H1).
  - exists parts'. repeat split; [assumption..|lia].
Qed.

End LoopFacts.

Lemma split_loop_enough n_parts parts :
  (n_parts <= Z.of_nat (length parts))%Z ->
  split_loop n_parts parts = inr parts.
Proof.
  intros H. rewrite split_loop_unfold.
  now apply Z.ltb_ge in H as ->.
Qed.

Lemma merge_loop_enough n_parts parts :
  (Z.of_nat (length parts) <= n_parts)%Z ->
  merge_loop n_parts parts = inr parts.
Proof.
  intros H. rewrite merge_loop_unfold.
  now apply Z.ltb_ge in H as ->.
Qed.

(** ** [_chunk_text] as a whole *)

Section ChunkFacts.

Lemma chunk_text_blank summary n_parts :
  has_ink summary = false ->
  _chunk_text summary n_parts = inr (times [] n_parts).
Proof.
  intros H. unfold _chunk_text. now rewrite truthy_strip, H.
Qed.

Lemma Forall_slice_to (P : pstr -> Prop) k parts :
  Forall P parts -> Forall P (slice_to k parts).
Proof.
  intros H. unfold slice_to. destruct (k <? 0)%Z; now apply Forall_cut.
Qed.

Lemma slice_to_length (A : Type) k (l : list A) :
  (0 <= k)%Z ->
  Z.of_nat (length (slice_to k l)) = Z.min k (Z.of_nat (length l)).
Proof.
  intros Hk. unfold slice_to.
  apply Z.ltb_ge in Hk as E. rewrite E, length_firstn. lia.
Qed.

(** On a summary that is not all whitespace, [_chunk_text] returns, with
    [n_parts] parts when [n_parts] is not negative, and every property
    of the packed parts that both loops keep holds of the result. *)
Lemma chunk_text_spec (P : pstr -> Prop) summary n_parts :
  has_ink summary = true ->
  halving P -> merging P ->
  Forall P (pack (split2 dot space (strip summary))) ->
  exists parts, _chunk_text summary n_parts = inr parts
                /\ Forall P parts
                /\ ((0 <= n_parts)%Z -> Z.of_nat (length parts) = n_parts).
Proof.
  intros Hink Hh Hm Hp. unfold _chunk_text.
  rewrite truthy_strip, Hink. cbn [negb].
  pose proof (pack_nonempty _ Hink) as Hne.
  set (parts0 := pack _) in *.
  destruct (split_loop_spec n_parts Hh (le_n _) Hne Hp)
    as (parts1 & -> & Hp1 & Hl1).
  destruct (merge_loop_spec n_parts Hm (le_n _) Hp1)
    as (parts2 & -> & Hp2 & Hl2).
  eexists. split; [reflexivity|]. split; [now apply Forall_slice_to|].
  intros Hn. rewrite slice_to_length by exact Hn.
  assert (0 < length parts0) by (destruct parts0; [easy | simpl; lia]).
  lia.
Qed.

Lemma halving_trivial : halving (fun _ => True).
Proof. now intros p k _. Qed.

Lemma merging_trivial : merging (fun _ => True).
Proof. now intros a b _ _. Qed.

Lemma Forall_trivial (l : list pstr) : Forall (fun _ => True) l.
Proof. now apply Forall_forall. Qed.

(** [_chunk_text] raises on no input. *)
Lemma chunk_text_total summary n_parts :
  exists parts, _chunk_text summary n_parts = inr parts
                /\ ((0 <= n_parts)%Z -> Z.of_nat (length parts) = n_parts).
Proof.
  destruct (has_ink summary) eqn:Hink.
  - destruct (@chunk_text_spec (fun _ => True) summary n_parts Hink
                halving_trivial merging_trivial
                (Forall_trivial _)) as (parts & H1 & _ & H2).
    now exists parts.
  - rewrite (@chunk_text_blank summary n_parts Hink). eexists.
    split; [reflexivity|].
    intros Hn. unfold times. rewrite repeat_length. lia.
Qed.

Lemma halving_stripped : halving stripped.
Proof. intros p k _. split; apply stripped_strip. Qed.

Lemma merging_stripped : merging stripped.
Proof. intros a b _ _. apply stripped_strip. Qed.

Lemma truthy_nonempty s : truthy s = true <-> s <> [].
Proof. destruct s; simpl; split; easy. Qed.

Lemma pack_step_stripped parts current sent :
  Forall stripped parts -> stripped current ->
  Forall stripped (fst (pack_step (parts, current) sent))
  /\ stripped (snd (pack_step (parts, current) sent)).
Proof.
  intros Hp Hc. unfold pack_step.
  destruct (truthy (strip sent)) eqn:Es; cbn [negb]; [|now split].
  assert (Ht : stripped (if truthy current
                         then current ++ lit ". " ++ strip sent
                         else strip sent)).
  { destruct (truthy current) eqn:Ec; [|apply stripped_strip].
    apply stripped_glue;
      [assumption | apply stripped_strip
       | now apply truthy_nonempty | now apply truthy_nonempty]. }
  destruct (_ <? _); simpl; (split; [|assumption || apply stripped_strip]);
    [|assumption].
  apply Forall_app. split; [assumption | now constructor].
Qed.

Lemma pack_stripped sentences : Forall stripped (pack sentences).
Proof.
  apply (@pack_Forall stripped stripped (fun _ => True)).
  - exact stripped_nil.
  - intros parts current sent _. apply pack_step_stripped.
  - now intros current Hc _.
  - apply Forall_trivial.
Qed.

End ChunkFacts.

(** ** The assembler: count, blank input, zero parts, trimmed parts *)

(** C1: for every [n_parts] in [1, 50] and every non-empty summary,
    [_chunk_text summary n_parts] returns (it does not raise) a list of
    exactly [n_parts] strings. *)
Theorem chunk_text_exact_count summary n_parts :
  summary <> [] -> (1 <= n_parts <= 50)%Z ->
  exists parts, _chunk_text summary n_parts = inr parts
                /\ Z.of_nat (length parts) = n_parts.
Proof.
  intros _ Hn.
  destruct (chunk_text_total summary n_parts) as (parts & H1 & H2).
  exists parts. split; [exact H1 | apply H2; lia].
Qed.

Lemma chunk_text_exact_count_witness :
  lit "One. Two. Three." <> [] /\ (1 <= 5 <= 50)%Z
  /\ exists parts, _chunk_text (lit "One. Two. Three.") 5 = inr parts
                   /\ Z.of_nat (length parts) = 5%Z.
Proof.
  split; [discriminate|]. split; [lia|].
  apply chunk_text_exact_count; [discriminate | lia].
Defined.

(** C3: for every [n >= 0], when the summary is empty or holds only
    whitespace, [_chunk_text summary n] returns exactly [n] empty
    strings. *)
Theorem chunk_text_blank_summary summary n :
  (0 <= n)%Z -> summary = [] \/ forallb is_space summary = true ->
  _chunk_text summary n = inr (repeat [] (Z.to_nat n))
  /\ Z.of_nat (length (repeat (@nil char) (Z.to_nat n))) = n.
Proof.
  intros Hn Hs. split.
  - apply chunk_text_blank. destruct Hs as [->|Hs]; [reflexivity|].
    now apply has_ink_spaces.
  - rewrite repeat_length. lia.
Qed.

Lemma chunk_text_blank_summary_witness :
  (0 <= 4)%Z /\ forallb is_space [space; 9%N; newline] = true
  /\ _chunk_text [space; 9%N; newline] 4 = inr [[]; []; []; []].
Proof.
  split; [lia|]. split; [reflexivity|].
  apply (@chunk_text_blank_summary [space; 9%N; newline] 4);
    [lia | right; reflexivity].
Defined.

(** C8: for every summary, empty or not, [_chunk_text summary 0] raises
    nothing and returns the empty list. *)
Theorem chunk_text_zero_parts summary : _chunk_text summary 0 = inr [].
Proof.
  destruct (chunk_text_total summary 0) as (parts & H1 & H2).
  rewrite H1. specialize (H2 (Z.le_refl 0)).
  destruct parts; [reflexivity | simpl in H2; lia].
Qed.

(** C9: for every summary and every [n_parts], [_chunk_text] returns,
    and every string it returns is its own trimmed form: it neither
    starts nor ends with whitespace. *)
Theorem chunk_text_parts_trimmed summary n_parts :
  exists parts,
    _chunk_text summary n_parts = inr parts
    /\ Forall (fun p => strip p = p /\ head_ok p /\ head_ok (rev p)) parts.
Proof.
  assert (H : exists parts, _chunk_text summary n_parts = inr parts
                            /\ Forall stripped parts).
  { destruct (has_ink summary) eqn:Hink.
    - destruct (@chunk_text_spec stripped summary n_parts Hink
                  halving_stripped merging_stripped (pack_stripped _))
        as (parts & H1 & H2 & _).
      now exists parts.
    - rewrite (@chunk_text_blank summary n_parts Hink).
      eexists. split; [reflexivity|].
      apply Forall_forall. intros p ->%repeat_spec. apply stripped_nil. }
  destruct H as (parts & H1 & H2). exists parts. split; [exact H1|].
  eapply Forall_impl; [|exact H2].
  intros p Hp. split; [exact Hp | now apply stripped_iff].
Qed.

(** C4: in the packing loop, when [current] is still empty and the
    fragment alone is over the limit ([len + 15 > 260]), the empty
    [current] is appended to [parts] and the fragment becomes the new
    [current]; so there are a non-empty summary and an [n_parts >= 1]
    for which [_chunk_text] returns a list that holds an empty string. *)
Theorem pack_closes_empty_current :
  (forall parts sent,
      truthy (strip sent) = true -> 260 < length (strip sent) + 15 ->
      pack_step (parts, []) sent = (parts ++ [[]], strip sent))
  /\ (exists summary n_parts parts,
         summary <> [] /\ has_ink summary = true /\ (1 <= n_parts)%Z
         /\ 245 < length (hd [] (split2 dot space (strip summary)))
         /\ _chunk_text summary n_parts = inr parts
         /\ In [] parts).
Proof.
  split.
  - intros parts sent Hs Hlen. unfold pack_step. rewrite Hs. cbn [negb truthy].
    apply Nat.ltb_lt in Hlen. now rewrite Hlen.
  - exists (repeat 97%N 246), 2%Z, [[]; repeat 97%N 246].
    split; [discriminate|]. split; [reflexivity|]. split; [lia|].
    split; [vm_compute; lia|]. split; [vm_compute; reflexivity|].
    now left.
Qed.

Lemma pack_closes_empty_current_witness :
  truthy (strip (repeat 97%N 246)) = true
  /\ 260 < length (strip (repeat 97%N 246)) + 15
  /\ pack_step ([lit "x"], []) (repeat 97%N 246)
     = ([lit "x"] ++ [[]], strip (repeat 97%N 246)).
Proof.
  split; [reflexivity|]. split; [vm_compute; lia|].
  apply (proj1 pack_closes_empty_current); [reflexivity | vm_compute; lia].
Defined.

(** ** The character budget and non-empty parts *)

Section BudgetFacts.










End BudgetFacts.


(** ** Computations and the calls they make *)

Section ProgFacts.

Lemma run_bind (A B : Type) (w : world) (p : prog A) (f : A -> prog B) :
  run w (bind p f) = run w (f (run w p)).
Proof.
  induction p as [a | X c k IH]; simpl; [reflexivity | apply IH].
Qed.

Lemma calls_bind (A B : Type) (w : world) (p : prog A) (f : A -> prog B) :
  calls w (bind p f) = calls w p ++ calls w (f (run w p)).
Proof.
  induction p as [a | X c k IH]; simpl; [reflexivity | now rewrite IH].
Qed.

End ProgFacts.

(** ** The summariser *)

Section SummarizeFacts.

Lemma split_ws_blank s : has_ink s = false -> split_ws s = [].
Proof.
  unfold split_ws. induction s as [|c s IH]; simpl; [reflexivity|].
  rewrite orb_false_iff, negb_false_iff. intros [-> H]. now apply IH.
Qed.

Lemma slice_to_firstn (A : Type) k (l : list A) :
  (0 <= k)%Z -> slice_to k l = firstn (Z.to_nat k) l.
Proof. intros H%Z.ltb_ge. unfold slice_to. now rewrite H. Qed.

End SummarizeFacts.

(** C6, as stated, fails on the code for a negative word budget: the
    slice [words[:-1]] drops the last word instead of keeping none. *)
Lemma summarize_negative_budget :
  _summarize_text (lit "a b c") None (-1) = Ret (lit "a b")
  /\ first_words (lit "a b c") (-1) = []
  /\ _summarize_text (lit "a b c") None (-1)
     <> Ret (first_words (lit "a b c") (-1)).
Proof.
  split; [reflexivity|]. split; [reflexivity|]. discriminate.
Qed.

(** C6, amended: for every text and every [target_words >= 0], when no
    API key is given, [_summarize_text] makes no call and returns the
    first [target_words] whitespace-delimited tokens of the text joined
    by single spaces; these are all the tokens when the text has no more
    than [target_words] of them. *)
Theorem summarize_fallback_amended text target_words :
  (0 <= target_words)%Z ->
  _summarize_text text None target_words
  = Ret (first_words text target_words)
  /\ (forall w, run w (_summarize_text text None target_words)
                = join (lit " ")
                       (firstn (Z.to_nat target_words) (split_ws text))
                /\ calls w (_summarize_text text None target_words) = [])
  /\ (length (split_ws text) <= Z.to_nat target_words ->
      first_words text target_words = join (lit " ") (split_ws text)).
Proof.
  intros Hk.
  assert (E : _summarize_text text None target_words
              = Ret (first_words text target_words)).
  { unfold _summarize_text, first_words.
    destruct (split_ws text) as [|word words] eqn:Ew.
    - now rewrite firstn_nil.
    - now rewrite slice_to_firstn. }
  split; [exact E|]. split.
  - intros w. rewrite E. now split.
  - intros Hlen. unfold first_words. now rewrite firstn_all2.
Qed.

Lemma summarize_fallback_amended_witness :
  (0 <= 2)%Z
  /\ _summarize_text (lit " one  two three ") None 2 = Ret (lit "one two").
Proof.
  split; [lia|].
  exact (proj1 (@summarize_fallback_amended (lit " one  two three ") 2
                  ltac:(lia))).
Defined.

(** C10: when the text is empty or holds only whitespace,
    [_summarize_text] returns the empty string for every word budget and
    every API key, and makes no call, whatever the key. *)
Theorem summarize_blank_text text openai_api_key target_words :
  text = [] \/ forallb is_space text = true ->
  _summarize_text text openai_api_key target_words = Ret []
  /\ forall w,
      run w (_summarize_text text openai_api_key target_words) = []
      /\ calls w (_summarize_text text openai_api_key target_words) = [].
Proof.
  intros H.
  assert (E : _summarize_text text openai_api_key target_words = Ret []).
  { unfold _summarize_text. rewrite split_ws_blank; [reflexivity|].
    destruct H as [-> | H]; [reflexivity | now apply has_ink_spaces]. }
  split; [exact E|]. intros w. rewrite E. now split.
Qed.

Lemma summarize_blank_text_witness :
  forallb is_space [space; newline] = true
  /\ _summarize_text [space; newline] (Some (lit "sk-key")) 300 = Ret [].
Proof.
  split; [reflexivity|].
  exact (proj1 (@summarize_blank_text [space; newline] (Some (lit "sk-key")) 300
                  (or_intror eq_refl))).
Defined.

(** ** The formatter *)

Section FormatFacts.

Lemma fold_left_snoc (A B : Type) (f : A -> B) (l : list A) (acc : list B) :
  fold_left (fun tweets x => tweets ++ [f x]) l acc = acc ++ map f l.
Proof.
  revert acc. induction l as [|x l IH]; intros acc; simpl.
  - now rewrite app_nil_r.
  - rewrite IH, <- app_assoc. reflexivity.
Qed.

Lemma fold_left_same (A B : Type) (f g : B -> A -> B) :
  (forall b a, f b a = g b a) ->
  forall l b, fold_left f l b = fold_left g l b.
Proof.
  intros H. induction l as [|a l IH]; intros b; simpl;
    [reflexivity | now rewrite H, IH].
Qed.

Lemma format_tweets_map parts chosen_title max_tweets :
  format_tweets parts chosen_title max_tweets
  = map (fun ip => tweet chosen_title max_tweets (fst ip) (snd ip))
        (enumerate 1 parts).
Proof.
  unfold format_tweets.
  change (map (fun ip => tweet chosen_title max_tweets (fst ip) (snd ip))
              (enumerate 1 parts))
    with ([] ++ map (fun ip => tweet chosen_title max_tweets (fst ip) (snd ip))
                    (enumerate 1 parts)).
  rewrite <- fold_left_snoc.
  apply fold_left_same. now intros tweets [i part].
Qed.

Lemma enumerate_length (A : Type) (l : list A) start :
  length (enumerate start l) = length l.
Proof.
  revert start. induction l as [|x l IH]; intros start; simpl;
    [reflexivity | now rewrite IH].
Qed.

Lemma enumerate_nth_error (A : Type) (l : list A) : forall start i x,
  nth_error l i = Some x ->
  nth_error (enumerate start l) i = Some (start + i, x).
Proof.
  induction l as [|y l IH]; intros start [|i] x; simpl; try discriminate.
  - intros [= ->]. now rewrite Nat.add_0_r.
  - intros H. rewrite (IH (S start) i x H). f_equal. f_equal. lia.
Qed.

End FormatFacts.

(** C5: for every list of parts, title and [n_parts], the formatting
    loop gives one message per part; message [i] (counted from 1) starts
    with the header made of the marker at position [(i - 1) mod 10] of
    the palette of 10 markers, a space, [i], a slash, [n_parts] and a
    space; message 1 is the header, the hook (the trimmed title and the
    fixed suffix), a newline and the trimmed part; every later message is
    the header and the trimmed part. *)
Theorem format_tweets_messages parts title n_parts :
  length (format_tweets parts title n_parts) = length parts
  /\ length emojis = 10
  /\ forall i part,
      1 <= i -> nth_error parts (i - 1) = Some part ->
      let marker := nth ((i - 1) mod 10) emojis [] in
      let hdr := marker ++ lit " " ++ str_of_int (Z.of_nat i) ++ lit "/"
                        ++ str_of_int n_parts ++ lit " " in
      nth_error (format_tweets parts title n_parts) (i - 1)
      = Some (if i =? 1
              then hdr ++ (strip title ++ hook_suffix) ++ [newline]
                       ++ strip part
              else hdr ++ strip part).
Proof.
  rewrite format_tweets_map. split; [|split; [reflexivity|]].
  - now rewrite length_map, enumerate_length.
  - intros i part Hi Hnth. cbv zeta.
    rewrite nth_error_map, (enumerate_nth_error _ 1 _ Hnth).
    replace (1 + (i - 1)) with i by lia. reflexivity.
Qed.

Lemma format_tweets_messages_witness :
  1 <= 2
  /\ nth_error [lit "first"; lit " second "] (2 - 1) = Some (lit " second ")
  /\ nth_error (format_tweets [lit "first"; lit " second "] (lit "Title") 5)
               (2 - 1)
     = Some ([287; 376; 8217; 161]%N ++ lit " 2/5 second").
Proof.
  split; [lia|]. split; [reflexivity|].
  exact (proj2 (proj2 (format_tweets_messages
                         [lit "first"; lit " second "] (lit "Title") 5))
               2 (lit " second ") ltac:(lia) eq_refl).
Defined.

(** ** The entry point *)

(** A world in which the URL has no scheme: [requests] refuses it with
    [MissingSchema], a subclass of [ValueError], and [fetch_content]
    lets the exception through. *)
Definition no_scheme : world :=
  fun X (c : call X) =>
    match c in call T return T with
    | FetchContent _ =>
        inl (ValueError
               "Invalid URL 'example.org/post': No scheme supplied")
    | ChatCompletion _ _ => None
    end.

(** "[generate_thread] raises a [ValueError] if and only if
    [max_tweets < 3] or [max_tweets > 20]". *)
Definition value_error_iff_out_of_range
           (url : pstr) (openai_api_key title : option pstr)
           (max_tweets : Z) : Prop :=
  forall w,
    (exists msg, run w (generate_thread url openai_api_key title max_tweets)
                 = inl (ValueError msg))
    <-> (max_tweets < 3 \/ max_tweets > 20)%Z.

(** C7, as stated, fails on the code: with [max_tweets = 10] and a URL
    without scheme the [ValueError] of the fetch leaves
    [generate_thread]. *)
Lemma value_error_in_range :
  run no_scheme (generate_thread (lit "example.org/post") None None 10)
  = inl (ValueError "Invalid URL 'example.org/post': No scheme supplied")
  /\ ~ value_error_iff_out_of_range (lit "example.org/post") None None 10.
Proof.
  split; [reflexivity|]. intros H.
  destruct (H no_scheme) as [H1 _].
  assert (Hrange : (10 < 3 \/ 10 > 20)%Z)
    by (apply H1; eexists; reflexivity).
  lia.
Qed.

(** C7, amended: [generate_thread] raises its own [ValueError]
    ([max_tweets must be between 3 and 20]) if and only if
    [max_tweets < 3] or [max_tweets > 20], and then at once: the
    computation is the raise itself and makes no call (no fetch, no
    summarisation). Whatever the outside world answers, a [ValueError]
    leaves [generate_thread] exactly in that case and when, with
    [max_tweets] in range, the page fetch itself raised it. *)
Theorem generate_thread_invalid_argument url openai_api_key title max_tweets :
  (generate_thread url openai_api_key title max_tweets
   = Ret (inl (ValueError "max_tweets must be between 3 and 20"))
   <-> (max_tweets < 3 \/ max_tweets > 20)%Z)
  /\ ((max_tweets < 3 \/ max_tweets > 20)%Z ->
      forall w,
        calls w (generate_thread url openai_api_key title max_tweets) = [])
  /\ (forall (w : world) msg,
         run w (generate_thread url openai_api_key title max_tweets)
         = inl (ValueError msg)
         <-> ((max_tweets < 3 \/ max_tweets > 20)%Z
              /\ msg = "max_tweets must be between 3 and 20"%string)
             \/ ((3 <= max_tweets <= 20)%Z
                 /\ w _ (FetchContent url) = inl (ValueError msg))).
Proof.
  assert (Hbad : (max_tweets < 3 \/ max_tweets > 20)%Z ->
                 generate_thread url openai_api_key title max_tweets
                 = Ret (inl (ValueError "max_tweets must be between 3 and 20"))).
  { intros H. unfold generate_thread.
    destruct ((max_tweets <? 3) || (20 <? max_tweets))%Z eqn:E; [reflexivity|].
    apply orb_false_iff in E as [E1%Z.ltb_ge E2%Z.ltb_ge]. lia. }
  assert (Hgood : (3 <= max_tweets <= 20)%Z ->
                  ((max_tweets <? 3) || (20 <? max_tweets))%Z = false).
  { intros H. apply orb_false_iff. split; apply Z.ltb_ge; lia. }
  split; [|split].
  - split; [|exact Hbad]. intros H.
    destruct (Z_lt_dec max_tweets 3) as [|H3]; [now left|].
    destruct (Z_gt_dec max_tweets 20) as [|H20]; [now right|].
    unfold generate_thread in H. rewrite Hgood in H by lia. discriminate.
  - intros H w. now rewrite (Hbad H).
  - intros w msg. split.
    + intros Hrun.
      destruct (Z_lt_dec max_tweets 3) as [H3|H3];
        [left; rewrite Hbad in Hrun by lia; simpl in Hrun;
         injection Hrun as <-; split; [lia | reflexivity]|].
      destruct (Z_gt_dec max_tweets 20) as [H20|H20];
        [left; rewrite Hbad in Hrun by lia; simpl in Hrun;
         injection Hrun as <-; split; [lia | reflexivity]|].
      right. split; [lia|].
      unfold generate_thread in Hrun. rewrite Hgood in Hrun by lia.
      simpl in Hrun.
      destruct (w _ (FetchContent url))
        as [exc | [[page_title description] content]];
        [simpl in Hrun; now injection Hrun as ->|].
      exfalso. rewrite run_bind in Hrun.
      destruct (chunk_text_total
                  (run w (_summarize_text
                            (if truthy content then content else description)
                            openai_api_key 300))
                  max_tweets) as (parts & Hc & _).
      rewrite Hc in Hrun. discriminate.
    + intros [[H ->] | [H Hf]].
      * now rewrite (Hbad H).
      * unfold generate_thread. rewrite (Hgood H). simpl. now rewrite Hf.
Qed.

Lemma generate_thread_invalid_argument_witness :
  (2 < 3 \/ 2 > 20)%Z
  /\ calls no_scheme
           (generate_thread (lit "https://example.org/post") None None 2)
     = [].
Proof.
  split; [lia|].
  exact (proj1 (proj2 (generate_thread_invalid_argument
                         (lit "https://example.org/post") None None 2))
               ltac:(lia) no_scheme).
Defined.

(** * Further properties of the code *)

(** ** Which part is split and which pair is merged *)

Section Selection.

Variable better : nat -> nat -> bool.
Variable R : nat -> nat -> Prop.
Hypothesis better_R : forall k b, better k b = true <-> R k b.
Hypothesis R_asym : forall a b, R a b -> ~ R b a.
Hypothesis R_cotrans : forall k b j, R k b -> R k j \/ R j b.

(** [r] is the first index whose key no other key beats. *)
Definition first_best (keys : list nat) (r : nat) : Prop :=
  r < length keys
  /\ (forall j, j < length keys -> ~ R (nth j keys 0) (nth r keys 0))
  /\ (forall j, j < r -> R (nth r keys 0) (nth j keys 0)).

Lemma scan_first_best ks : forall pre best i bestk,
  i = length pre -> bestk = nth best pre 0 ->
  first_best pre best ->
  first_best (pre ++ ks) (scan better ks i best bestk).
Proof.
  induction ks as [|k ks IH];
    intros pre best i bestk -> -> (Hb & Hmax & Hfirst); simpl.
  - rewrite app_nil_r. now repeat split.
  - assert (Hlen : length (pre ++ [k]) = S (length pre))
      by (rewrite length_app; simpl; lia).
    assert (Hold : forall j, j < length pre ->
                             nth j (pre ++ [k]) 0 = nth j pre 0)
      by (intros j Hj; now apply app_nth1).
    assert (Hnew : nth (length pre) (pre ++ [k]) 0 = k)
      by (rewrite app_nth2, Nat.sub_diag by lia; reflexivity).
    replace (pre ++ k :: ks) with ((pre ++ [k]) ++ ks)
      by (now rewrite <- app_assoc).
    destruct (better k (nth best pre 0)) eqn:E.
    + apply better_R in E.
      apply IH; [now rewrite Hlen | now rewrite Hnew |].
      unfold first_best. rewrite Hlen. repeat split; [lia | |].
      * intros j Hj. rewrite Hnew.
        destruct (Nat.eq_dec j (length pre)) as [-> | Hne].
        -- rewrite Hnew. intros Hkk. exact (R_asym Hkk Hkk).
        -- rewrite Hold by lia. intros Hjk.
           destruct (R_cotrans (nth j pre 0) E) as [H | H].
           ++ exact (R_asym Hjk H).
           ++ apply (Hmax j); [lia | exact H].
      * intros j Hj. rewrite Hnew, Hold by lia.
        destruct (R_cotrans (nth j pre 0) E) as [H | H]; [exact H|].
        exfalso. apply (Hmax j); [lia | exact H].
    + assert (~ R k (nth best pre 0)) as Hno.
      { intros H. apply better_R in H. congruence. }
      apply IH; [now rewrite Hlen | now rewrite Hold |].
      unfold first_best. rewrite Hlen. repeat split; [lia | |].
      * intros j Hj. rewrite (Hold best Hb).
        destruct (Nat.eq_dec j (length pre)) as [-> | Hne].
        -- now rewrite Hnew.
        -- rewrite Hold by lia. apply Hmax. lia.
      * intros j Hj. rewrite (Hold best Hb), Hold by lia. now apply Hfirst.
Qed.

Lemma scan_from_head k ks :
  first_best (k :: ks) (scan better ks 1 0 k).
Proof.
  apply (@scan_first_best ks [k] 0 1 k eq_refl eq_refl). repeat split; simpl.
  - lia.
  - intros [|j] Hj; [|lia]. intros H. exact (R_asym H H).
  - intros j Hj. lia.
Qed.

End Selection.

Section ListShape.

Variable A : Type.

Lemma firstn_skipn_exact (F S : list A) :
  firstn (length F) (F ++ S) = F /\ skipn (length F) (F ++ S) = S.
Proof.
  rewrite firstn_app, skipn_app, Nat.sub_diag, firstn_all, skipn_all.
  simpl. now rewrite app_nil_r.
Qed.

(** Taking a list apart at position [i]. *)
Lemma list_at (l : list A) i d :
  i < length l -> l = firstn i l ++ nth i l d :: skipn (S i) l.
Proof.
  revert i. induction l as [|x l IH]; intros [|i] Hi; simpl in *; try lia.
  - reflexivity.
  - f_equal. apply IH. lia.
Qed.

(** Taking a list apart at positions [i] and [i + 1]. *)
Lemma list_at_pair (l : list A) i d :
  i + 1 < length l ->
  l = firstn i l ++ nth i l d :: nth (i + 1) l d :: skipn (i + 2) l.
Proof.
  intros Hi. rewrite (list_at l d (i:=i)) at 1 by lia. do 2 f_equal.
  rewrite (list_at (skipn (S i) l) d (i:=0)) at 1
    by (rewrite length_skipn; lia).
  simpl firstn. cbn [app]. rewrite skipn_skipn.
  replace (1 + S i) with (i + 2) by lia.
  f_equal. rewrite nth_skipn. f_equal. lia.
Qed.

(** [pop(i)] then two [insert]s put two elements where one was. *)
Lemma replace_one_by_two (l : list A) i (a b : A) :
  i < length l ->
  insert_at (i + 1) b (insert_at i a (remove_at i l))
  = firstn i l ++ a :: b :: skipn (S i) l.
Proof.
  intros Hi. unfold remove_at.
  assert (Hf : length (firstn i l) = i) by (rewrite length_firstn; lia).
  unfold insert_at at 2.
  destruct (firstn_skipn_exact (firstn i l) (skipn (S i) l)) as [H1 H2].
  rewrite Hf in H1, H2. rewrite H1, H2.
  unfold insert_at.
  replace (firstn i l ++ a :: skipn (S i) l)
    with ((firstn i l ++ [a]) ++ skipn (S i) l) by (now rewrite <- app_assoc).
  assert (Hf' : length (firstn i l ++ [a]) = i + 1)
    by (rewrite length_app, Hf; reflexivity).
  destruct (firstn_skipn_exact (firstn i l ++ [a]) (skipn (S i) l)) as [H3 H4].
  rewrite Hf' in H3, H4. rewrite H3, H4. now rewrite <- app_assoc.
Qed.

End ListShape.

Section SelectionFacts.

Lemma max_index_first_best keys idx :
  max_index keys = Some idx -> first_best (fun k b => b < k) keys idx.
Proof.
  destruct keys as [|k ks]; simpl; [discriminate|]. intros [= <-].
  apply (@scan_from_head (fun k b => b <? k) (fun k b => b < k)).
  - intros a b. apply Nat.ltb_lt.
  - intros a b. lia.
  - intros a b j. lia.
Qed.

Lemma min_index_first_best keys idx :
  min_index keys = Some idx -> first_best (fun k b => k < b) keys idx.
Proof.
  destruct keys as [|k ks]; simpl; [discriminate|]. intros [= <-].
  apply (@scan_from_head (fun k b => k <? b) (fun k b => k < b)).
  - intros a b. apply Nat.ltb_lt.
  - intros a b. lia.
  - intros a b j. lia.
Qed.

Lemma lengths_nth (parts : list pstr) j :
  nth j (map (@length char) parts) 0 = length (nth j parts []).
Proof. exact (map_nth (@length char) parts [] j). Qed.

Lemma pair_keys_nth parts j :
  j + 1 < length parts ->
  nth j (pair_keys parts) 0
  = length (nth j parts []) + length (nth (j + 1) parts []).
Proof.
  intros Hj. unfold pair_keys.
  set (f := fun i => length (nth i parts []) + length (nth (S i) parts [])).
  rewrite (nth_indep _ 0 (f 0))
    by (rewrite length_map, length_seq; lia).
  rewrite map_nth, seq_nth by lia. unfold f. simpl.
  now replace (j + 1) with (S j) by lia.
Qed.

End SelectionFacts.

(** X1: one round of the split loop cuts the longest part, the first one
    among equally long parts, at its character midpoint and puts the two
    trimmed halves in its place; the halves together are no longer than
    the part was. *)
Theorem split_longest_first_longest parts parts' :
  split_longest parts = inr parts' ->
  exists idx,
    idx < length parts
    /\ (forall j, j < length parts ->
                  length (nth j parts []) <= length (nth idx parts []))
    /\ (forall j, j < idx ->
                  length (nth j parts []) < length (nth idx parts []))
    /\ parts' = firstn idx parts
                ++ strip (firstn (length (nth idx parts []) / 2)
                                 (nth idx parts []))
                :: strip (skipn (length (nth idx parts []) / 2)
                                (nth idx parts []))
                :: skipn (S idx) parts
    /\ length (strip (firstn (length (nth idx parts []) / 2)
                             (nth idx parts [])))
       + length (strip (skipn (length (nth idx parts []) / 2)
                              (nth idx parts [])))
       <= length (nth idx parts []).
Proof.
  unfold split_longest.
  destruct (max_index (map (@length char) parts)) as [idx|] eqn:E;
    [|discriminate].
  apply max_index_first_best in E as (Hi & Hmax & Hfirst).
  rewrite length_map in Hi, Hmax.
  intros [= <-]. exists idx. split; [exact Hi|]. split; [|split; [|split]].
  - intros j Hj. specialize (Hmax j Hj). rewrite !lengths_nth in Hmax. lia.
  - intros j Hj. specialize (Hfirst j Hj). now rewrite !lengths_nth in Hfirst.
  - now apply replace_one_by_two.
  - set (p := nth idx parts []). set (half := length p / 2).
    pose proof (strip_length (firstn half p)).
    pose proof (strip_length (skipn half p)).
    assert (length (firstn half p) + length (skipn half p) = length p)
      by (rewrite <- length_app, firstn_skipn; reflexivity).
    lia.
Qed.

Lemma split_longest_first_longest_witness :
  split_longest [lit "ab"; lit "c d e"; lit "fghij"]
  = inr [lit "ab"; lit "c"; lit "d e"; lit "fghij"]
  /\ exists idx,
      idx < 3
      /\ (forall j, j < idx ->
                    length (nth j [lit "ab"; lit "c d e"; lit "fghij"] [])
                    < length (nth idx [lit "ab"; lit "c d e"; lit "fghij"] [])).
Proof.
  split; [reflexivity|].
  destruct (@split_longest_first_longest
              [lit "ab"; lit "c d e"; lit "fghij"]
              [lit "ab"; lit "c"; lit "d e"; lit "fghij"] eq_refl)
    as (idx & Hi & _ & Hfirst & _).
  exists idx. split; [exact Hi | exact Hfirst].
Defined.

(** X2: one round of the merge loop joins the adjacent pair with the
    smallest combined length, the first one among equal pairs, with one
    space, trims the result and puts it in place of the pair; the merged
    part is at most one character longer than the pair together. *)
Theorem merge_smallest_first_smallest parts parts' :
  merge_smallest parts = inr parts' ->
  exists idx,
    idx + 1 < length parts
    /\ (forall j, j + 1 < length parts ->
                  length (nth idx parts []) + length (nth (idx + 1) parts [])
                  <= length (nth j parts []) + length (nth (j + 1) parts []))
    /\ (forall j, j < idx ->
                  length (nth idx parts []) + length (nth (idx + 1) parts [])
                  < length (nth j parts []) + length (nth (j + 1) parts []))
    /\ parts' = firstn idx parts
                ++ strip (nth idx parts [] ++ lit " " ++ nth (idx + 1) parts [])
                :: skipn (idx + 2) parts
    /\ length (strip (nth idx parts [] ++ lit " " ++ nth (idx + 1) parts []))
       <= length (nth idx parts []) + length (nth (idx + 1) parts []) + 1.
Proof.
  unfold merge_smallest.
  destruct (min_index (pair_keys parts)) as [idx|] eqn:E; [|discriminate].
  apply min_index_first_best in E as (Hi & Hmin & Hfirst).
  assert (Hlen : length (pair_keys parts) = length parts - 1)
    by (unfold pair_keys; now rewrite length_map, length_seq).
  rewrite Hlen in Hi, Hmin.
  intros [= <-]. exists idx. split; [lia|]. split; [|split; [|split]].
  - intros j Hj. specialize (Hmin j ltac:(lia)).
    rewrite !pair_keys_nth in Hmin by lia. lia.
  - intros j Hj. specialize (Hfirst j Hj).
    now rewrite !pair_keys_nth in Hfirst by lia.
  - reflexivity.
  - etransitivity; [apply strip_length|].
    rewrite !length_app. simpl. lia.
Qed.

Lemma merge_smallest_first_smallest_witness :
  merge_smallest [lit "abc"; lit "d"; lit "e"; lit "fgh"]
  = inr [lit "abc"; lit "d e"; lit "fgh"]
  /\ exists idx, idx + 1 < 4.
Proof.
  split; [reflexivity|].
  destruct (@merge_smallest_first_smallest
              [lit "abc"; lit "d"; lit "e"; lit "fgh"]
              [lit "abc"; lit "d e"; lit "fgh"] eq_refl)
    as (idx & Hi & _).
  exists idx. exact Hi.
Defined.

(** ** More on greedy packing and on the part count *)

Section PackMore.

Lemma fold_pack_invariant (I : list pstr * pstr -> Prop) sentences :
  (forall st sent, I st -> I (pack_step st sent)) ->
  forall st, I st -> I (fold_left pack_step sentences st).
Proof.
  intros Hstep. induction sentences as [|sent rest IH]; intros st Hst; simpl.
  - exact Hst.
  - apply IH. now apply Hstep.
Qed.

Lemma tl_snoc (A : Type) (l : list A) x :
  l <> [] -> tl (l ++ [x]) = tl l ++ [x].
Proof. now destruct l. Qed.

Lemma pack_step_first_empty st sent :
  (fst st = [] \/ snd st <> []) /\ Forall (fun p => p <> []) (tl (fst st)) ->
  (fst (pack_step st sent) = [] \/ snd (pack_step st sent) <> [])
  /\ Forall (fun p => p <> []) (tl (fst (pack_step st sent))).
Proof.
  destruct st as [parts current]. simpl. intros [Hc Hp]. unfold pack_step.
  destruct (truthy (strip sent)) eqn:Es; cbn [negb]; [|now split].
  apply truthy_nonempty in Es.
  destruct (260 <? _) eqn:E; cbn [fst snd].
  - split; [now right|].
    destruct Hc as [-> | Hc]; [constructor|].
    destruct parts as [|p ps]; [constructor|]. simpl in *.
    apply Forall_app. split; [assumption | now constructor].
  - split; [|assumption]. right.
    destruct (truthy current); [|assumption].
    intros H. apply app_eq_nil in H as [_ H]. discriminate.
Qed.

End PackMore.

(** X3: every part that greedy packing produces satisfies the budget
    ([length + 15 <= 260]) or is, on its own, one trimmed sentence
    fragment that is over the budget. *)
Theorem pack_budget_or_single_fragment sentences :
  Forall (fun p => fits p \/ (In p (map strip sentences) /\ ~ fits p))
         (pack sentences).
Proof.
  apply (@pack_Forall
           (fun p => fits p \/ (In p (map strip sentences) /\ ~ fits p))
           (fun p => fits p \/ In p (map strip sentences))
           (fun sent => In sent sentences)).
  - left. unfold fits. simpl. lia.
  - intros parts current sent Hin Hp Hc. unfold pack_step.
    destruct (truthy (strip sent)); cbn [negb]; [|now split].
    destruct (260 <? _) eqn:E; cbn [fst snd].
    + split; [|right; now apply in_map].
      apply Forall_app. split; [assumption|]. constructor; [|constructor].
      destruct Hc as [Hc | Hc]; [now left|].
      destruct (le_lt_dec (length current + 15) 260) as [Hle | Hgt];
        [now left|].
      right. split; [assumption|]. unfold fits. lia.
    + split; [assumption|]. left. apply Nat.ltb_ge in E. exact E.
  - intros current [Hc | Hc] _; [now left|].
    destruct (le_lt_dec (length current + 15) 260) as [Hle | Hgt];
      [now left|].
    right. split; [assumption|]. unfold fits. lia.
  - now apply Forall_forall.
Qed.

(** X4: among the parts that greedy packing produces only the first one
    can be the empty string. *)
Theorem pack_only_first_empty sentences :
  Forall (fun p => p <> []) (tl (pack sentences)).
Proof.
  unfold pack.
  pose proof (@fold_pack_invariant
                (fun st => (fst st = [] \/ snd st <> [])
                           /\ Forall (fun p => p <> []) (tl (fst st)))
                sentences pack_step_first_empty ([], [])) as H.
  destruct (fold_left pack_step sentences ([], [])) as [parts current].
  simpl in H. destruct H as [Hc Hp]; [split; [now left | constructor]|].
  destruct (truthy current) eqn:E; [|assumption].
  apply truthy_nonempty in E.
  destruct parts as [|p ps]; [constructor|]. simpl in *.
  apply Forall_app. split; [assumption | now constructor].
Qed.

(** X5: when greedy packing already yields exactly [n_parts] parts, no
    split and no merge happens: [_chunk_text] returns the packed parts as
    they are. *)
Theorem chunk_text_exact_pack summary n_parts :
  has_ink summary = true ->
  Z.of_nat (length (pack (split2 dot space (strip summary)))) = n_parts ->
  _chunk_text summary n_parts = inr (pack (split2 dot space (strip summary))).
Proof.
  intros Hink Hlen. unfold _chunk_text.
  rewrite truthy_strip, Hink. cbn [negb].
  rewrite split_loop_enough, merge_loop_enough by lia.
  unfold slice_to. replace (n_parts <? 0)%Z with false by lia.
  rewrite <- Hlen, Nat2Z.id. now rewrite firstn_all.
Qed.

Lemma chunk_text_exact_pack_witness :
  has_ink (repeat 97%N 200 ++ lit ". " ++ repeat 98%N 200) = true
  /\ _chunk_text (repeat 97%N 200 ++ lit ". " ++ repeat 98%N 200) 2
     = inr [repeat 97%N 200; repeat 98%N 200].
Proof.
  split; [reflexivity|].
  exact (@chunk_text_exact_pack
           (repeat 97%N 200 ++ lit ". " ++ repeat 98%N 200) 2
           eq_refl eq_refl).
Defined.

(** X6: for a negative [n_parts], [_chunk_text] raises nothing and
    returns the empty list, whatever the summary. *)
Theorem chunk_text_negative_parts summary n_parts :
  (n_parts < 0)%Z -> _chunk_text summary n_parts = inr [].
Proof.
  intros Hn. destruct (has_ink summary) eqn:Hink.
  - unfold _chunk_text. rewrite truthy_strip, Hink. cbn [negb].
    pose proof (pack_nonempty _ Hink) as Hne.
    set (parts0 := pack _) in *.
    assert (0 < length parts0) by (destruct parts0; [easy | simpl; lia]).
    rewrite split_loop_enough by lia.
    destruct (@merge_loop_spec (fun _ => True) n_parts merging_trivial
                _ parts0 (le_n _) (Forall_trivial _))
      as (parts2 & -> & _ & Hl).
    unfold slice_to. replace (n_parts <? 0)%Z with true by lia.
    replace (Z.to_nat (Z.of_nat (length parts2) + n_parts)) with 0 by lia.
    reflexivity.
  - rewrite (@chunk_text_blank summary n_parts Hink). unfold times.
    now replace (Z.to_nat n_parts) with 0 by lia.
Qed.

Lemma chunk_text_negative_parts_witness :
  (-2 < 0)%Z /\ _chunk_text (lit "One. Two.") (-2) = inr [].
Proof.
  split; [lia|]. apply chunk_text_negative_parts. lia.
Defined.

(** ** What the assembler keeps of the summary *)

(** A character that is not whitespace. *)
Definition is_ink (c : char) : bool := negb (is_space c).

(** A character that is neither whitespace nor a full stop. *)
Definition is_letter (c : char) : bool :=
  negb (is_space c) && negb (c =? dot)%N.

Section Kept.

Variable keep : char -> bool.
Hypothesis keep_no_space : forall c, is_space c = true -> keep c = false.

Lemma kept_lstrip s : filter keep (lstrip s) = filter keep s.
Proof.
  induction s as [|c s IH]; simpl; [reflexivity|].
  destruct (is_space c) eqn:E; [|reflexivity].
  now rewrite (keep_no_space _ E).
Qed.

Lemma kept_strip s : filter keep (strip s) = filter keep s.
Proof.
  unfold strip, rstrip.
  now rewrite filter_rev, kept_lstrip, filter_rev, rev_involutive, kept_lstrip.
Qed.

Lemma kept_no_ink s : has_ink s = false -> filter keep s = [].
Proof.
  induction s as [|c s IH]; simpl; [reflexivity|].
  rewrite orb_false_iff, negb_false_iff. intros [Hc Hs].
  now rewrite (keep_no_space _ Hc), IH.
Qed.

Lemma split_longest_shape parts parts' :
  split_longest parts = inr parts' ->
  exists idx half,
    idx < length parts
    /\ parts' = firstn idx parts
                ++ strip (firstn half (nth idx parts []))
                :: strip (skipn half (nth idx parts []))
                :: skipn (S idx) parts.
Proof.
  unfold split_longest.
  destruct (max_index (map (@length char) parts)) as [idx|] eqn:E;
    [|discriminate].
  apply max_index_bound in E. rewrite length_map in E.
  intros [= <-]. exists idx, (length (nth idx parts []) / 2).
  split; [exact E | now apply replace_one_by_two].
Qed.

Lemma merge_smallest_shape parts parts' :
  merge_smallest parts = inr parts' ->
  exists idx,
    idx + 1 < length parts
    /\ parts' = firstn idx parts
                ++ strip (nth idx parts [] ++ lit " " ++ nth (idx + 1) parts [])
                :: skipn (idx + 2) parts.
Proof.
  unfold merge_smallest.
  destruct (min_index (pair_keys parts)) as [idx|] eqn:E; [|discriminate].
  apply min_index_bound in E. unfold pair_keys in E.
  rewrite length_map, length_seq in E.
  intros [= <-]. exists idx. split; [lia | reflexivity].
Qed.

Lemma kept_split_longest parts parts' :
  split_longest parts = inr parts' ->
  filter keep (concat parts') = filter keep (concat parts).
Proof.
  intros (idx & half & Hi & ->)%split_longest_shape.
  transitivity (filter keep (concat (firstn idx parts ++ nth idx parts []
                                             :: skipn (S idx) parts)));
    [|now rewrite <- (@list_at _ parts idx [] Hi)].
  rewrite !concat_app, !concat_cons, !filter_app, !kept_strip.
  f_equal. rewrite app_assoc. f_equal.
  now rewrite <- filter_app, firstn_skipn.
Qed.

Lemma kept_merge_smallest parts parts' :
  merge_smallest parts = inr parts' ->
  filter keep (concat parts') = filter keep (concat parts).
Proof.
  intros (idx & Hi & ->)%merge_smallest_shape.
  transitivity (filter keep (concat (firstn idx parts ++ nth idx parts []
                                             :: nth (idx + 1) parts []
                                             :: skipn (idx + 2) parts)));
    [|now rewrite <- (@list_at_pair _ parts idx [] Hi)].
  rewrite !concat_app, !concat_cons, !filter_app, kept_strip, !filter_app.
  f_equal. rewrite <- app_assoc. f_equal. f_equal.
  pose proof (keep_no_space space eq_refl) as Hs. unfold space in Hs.
  simpl. now rewrite Hs.
Qed.

End Kept.

Section LoopKeeps.

Variable X : Type.
Variable F : list pstr -> X.

Lemma split_loop_keeps n_parts :
  (forall parts parts',
      split_longest parts = inr parts' -> F parts' = F parts) ->
  forall k parts parts',
    Z.to_nat (n_parts - Z.of_nat (length parts)) <= k ->
    split_loop n_parts parts = inr parts' -> F parts' = F parts.
Proof.
  intros Hstep. induction k as [|k IH]; intros parts parts' Hk;
    rewrite split_loop_unfold;
    destruct (Z.of_nat (length parts) <? n_parts)%Z eqn:E;
    try (now intros [= <-]); apply Z.ltb_lt in E; [lia|].
  destruct (split_longest parts) as [e | parts1] eqn:H1; [discriminate|].
  intros H. rewrite <- (Hstep _ _ H1). apply IH; [|exact H].
  apply split_longest_length in H1. lia.
Qed.

Lemma merge_loop_keeps n_parts :
  (forall parts parts',
      merge_smallest parts = inr parts' -> F parts' = F parts) ->
  forall k parts parts',
    length parts <= k ->
    merge_loop n_parts parts = inr parts' -> F parts' = F parts.
Proof.
  intros Hstep. induction k as [|k IH]; intros parts parts' Hk;
    rewrite merge_loop_unfold;
    destruct (n_parts <? Z.of_nat (length parts))%Z eqn:E;
    try (now intros [= <-]);
    (destruct (length parts <? 2) eqn:E2; [now intros [= <-]|]);
    apply Nat.ltb_ge in E2; [lia|].
  destruct (merge_smallest parts) as [e | parts1] eqn:H1; [discriminate|].
  intros H. rewrite <- (Hstep _ _ H1). apply IH; [|exact H].
  apply merge_smallest_length in H1. lia.
Qed.

End LoopKeeps.

Section KeptWhole.

Variable keep : char -> bool.
Hypothesis keep_no_space : forall c, is_space c = true -> keep c = false.

(** On a summary that is not all whitespace and for [n_parts >= 1], the
    two loops and the final slice keep the kept characters of the packed
    parts, in order. *)
Lemma chunk_text_keeps summary n_parts :
  has_ink summary = true -> (1 <= n_parts)%Z ->
  exists parts,
    _chunk_text summary n_parts = inr parts
    /\ filter keep (concat parts)
       = filter keep (concat (pack (split2 dot space (strip summary)))).
Proof.
  intros Hink Hn. unfold _chunk_text.
  rewrite truthy_strip, Hink. cbn [negb].
  pose proof (pack_nonempty _ Hink) as Hne.
  set (parts0 := pack _) in *.
  assert (0 < length parts0) by (destruct parts0; [easy | simpl; lia]).
  destruct (@split_loop_spec (fun _ => True) n_parts halving_trivial
              _ parts0 (le_n _) Hne (Forall_trivial _))
    as (parts1 & E1 & _ & Hl1).
  destruct (@merge_loop_spec (fun _ => True) n_parts merging_trivial
              _ parts1 (le_n _) (Forall_trivial _))
    as (parts2 & E2 & _ & Hl2).
  rewrite E1, E2. eexists. split; [reflexivity|].
  unfold slice_to. replace (n_parts <? 0)%Z with false by lia.
  rewrite firstn_all2 by lia.
  rewrite (@merge_loop_keeps _ (fun parts => filter keep (concat parts))
             n_parts (@kept_merge_smallest keep keep_no_space)
             _ parts1 parts2 (le_n _) E2).
  exact (@split_loop_keeps _ (fun parts => filter keep (concat parts))
           n_parts (@kept_split_longest keep keep_no_space)
           _ parts0 parts1 (le_n _) E1).
Qed.

End KeptWhole.

Section Letters.

Lemma is_ink_no_space c : is_space c = true -> is_ink c = false.
Proof. unfold is_ink. now intros ->. Qed.

Lemma is_letter_no_space c : is_space c = true -> is_letter c = false.
Proof. unfold is_letter. now intros ->. Qed.

Lemma concat_push_front c frags :
  concat (push_front c frags) = c :: concat frags.
Proof. now destruct frags. Qed.

(** Splitting on [". "] drops full stops and spaces only. *)
Lemma split2_letters n : forall s,
  length s <= n ->
  filter is_letter (concat (split2 dot space s)) = filter is_letter s.
Proof.
  induction n as [|n IH]; intros s Hn.
  - destruct s; [reflexivity | simpl in Hn; lia].
  - destruct s as [|c [|d s'']]; [reflexivity | reflexivity |].
    change (split2 dot space (c :: d :: s'')) with
      (if ((c =? dot) && (d =? space))%N
       then [] :: split2 dot space s''
       else push_front c (split2 dot space (d :: s''))).
    destruct ((c =? dot) && (d =? space))%N eqn:E.
    + apply andb_true_iff in E as [->%N.eqb_eq ->%N.eqb_eq].
      rewrite concat_cons. cbn [app].
      rewrite IH by (simpl in *; lia). reflexivity.
    + rewrite concat_push_front.
      change (filter is_letter (c :: d :: s''))
        with (if is_letter c then c :: filter is_letter (d :: s'')
              else filter is_letter (d :: s'')).
      cbn [filter]. rewrite IH by (simpl in *; lia). reflexivity.
Qed.

Lemma pack_step_letters st sent :
  filter is_letter (concat (fst (pack_step st sent)) ++ snd (pack_step st sent))
  = filter is_letter (concat (fst st) ++ snd st) ++ filter is_letter sent.
Proof.
  destruct st as [parts current]. unfold pack_step.
  rewrite <- (@kept_strip is_letter is_letter_no_space sent).
  destruct (truthy (strip sent)) eqn:Es; cbn [negb fst snd].
  - destruct (260 <? _); cbn [fst snd].
    + rewrite concat_app. simpl. rewrite app_nil_r, !filter_app.
      now rewrite <- ?app_assoc.
    + destruct (truthy current) eqn:Ec.
      * rewrite !filter_app. simpl. now rewrite <- ?app_assoc.
      * destruct current; [|discriminate]. rewrite !filter_app.
        now rewrite <- ?app_assoc.
  - destruct (strip sent); [|discriminate]. simpl. now rewrite app_nil_r.
Qed.

Lemma fold_pack_letters sentences : forall st,
  filter is_letter (concat (fst (fold_left pack_step sentences st))
                    ++ snd (fold_left pack_step sentences st))
  = filter is_letter (concat (fst st) ++ snd st)
    ++ filter is_letter (concat sentences).
Proof.
  induction sentences as [|sent rest IH]; intros st; simpl.
  - now rewrite app_nil_r.
  - rewrite IH, pack_step_letters, (filter_app is_letter sent).
    now rewrite app_assoc.
Qed.

(** Packing adds and drops full stops and spaces only. *)
Lemma pack_letters sentences :
  filter is_letter (concat (pack sentences))
  = filter is_letter (concat sentences).
Proof.
  pose proof (fold_pack_letters sentences ([], [])) as H. simpl in H.
  rewrite <- H. unfold pack.
  destruct (fold_left pack_step sentences ([], [])) as [parts current].
  simpl. destruct current; simpl.
  - now rewrite app_nil_r.
  - rewrite concat_app. simpl. now rewrite app_nil_r.
Qed.

Lemma concat_repeat_nil (A : Type) k : concat (repeat (@nil A) k) = [].
Proof. induction k; simpl; [reflexivity | assumption]. Qed.

End Letters.

(** X7: for [n_parts >= 1] and a summary that is not all whitespace,
    the count normalisation (split loop, merge loop, final slice) loses,
    adds and reorders no character other than whitespace: the returned
    parts, read one after the other without whitespace, are the packed
    parts read the same way. *)
Theorem chunk_text_normalisation_keeps_ink summary n_parts :
  has_ink summary = true -> (1 <= n_parts)%Z ->
  exists parts,
    _chunk_text summary n_parts = inr parts
    /\ filter is_ink (concat parts)
       = filter is_ink (concat (pack (split2 dot space (strip summary)))).
Proof.
  intros Hink Hn.
  exact (@chunk_text_keeps is_ink is_ink_no_space summary n_parts Hink Hn).
Qed.

Lemma chunk_text_normalisation_keeps_ink_witness :
  has_ink (lit "ab cd. ef") = true /\ (1 <= 4)%Z
  /\ exists parts,
      _chunk_text (lit "ab cd. ef") 4 = inr parts
      /\ filter is_ink (concat parts)
         = filter is_ink
             (concat (pack (split2 dot space (strip (lit "ab cd. ef"))))).
Proof.
  split; [reflexivity|]. split; [lia|].
  apply chunk_text_normalisation_keeps_ink; [reflexivity | lia].
Defined.

(** X8: for every summary and [n_parts >= 1], [_chunk_text] returns
    parts that hold, in order, exactly the characters of the summary
    that are neither whitespace nor full stops: nothing else is lost,
    added or moved. *)
Theorem chunk_text_keeps_letters summary n_parts :
  (1 <= n_parts)%Z ->
  exists parts,
    _chunk_text summary n_parts = inr parts
    /\ filter is_letter (concat parts) = filter is_letter summary.
Proof.
  intros Hn. destruct (has_ink summary) eqn:Hink.
  - destruct (@chunk_text_keeps is_letter is_letter_no_space summary n_parts
                Hink Hn)
      as (parts & E & H).
    exists parts. split; [exact E|].
    rewrite H, pack_letters, (@split2_letters _ (strip summary) (le_n _)).
    apply (@kept_strip is_letter is_letter_no_space).
  - rewrite (@chunk_text_blank summary n_parts Hink). eexists.
    split; [reflexivity|]. unfold times.
    rewrite concat_repeat_nil.
    now rewrite (@kept_no_ink is_letter is_letter_no_space summary Hink).
Qed.

Lemma chunk_text_keeps_letters_witness :
  (1 <= 3)%Z
  /\ exists parts,
      _chunk_text (lit " One. Two three. ") 3 = inr parts
      /\ filter is_letter (concat parts) = lit "OneTwothree".
Proof.
  split; [lia|].
  exact (@chunk_text_keeps_letters (lit " One. Two three. ") 3 ltac:(lia)).
Defined.

(** ** The budget and the non-empty parts, in both regimes *)




Section SolidParts.












End SolidParts.



(** ** More on the summariser *)

(** A world without network: the fetch fails with an exception that is
    not a [ValueError], and so does the chat completion. *)
Definition offline : world :=
  fun X (c : call X) =>
    match c in call T return T with
    | FetchContent _ => inl (FetchError "connection refused")
    | ChatCompletion _ _ => None
    end.

(** A world that serves one page, whatever the URL, and in which the
    chat completion gives [answer]. *)
Definition serving (page : pstr * pstr * pstr) (answer : option pstr)
  : world :=
  fun X (c : call X) =>
    match c in call T return T with
    | FetchContent _ => inr page
    | ChatCompletion _ _ => answer
    end.

(** A word: not empty and without whitespace. *)
Definition word (w : pstr) : Prop := w <> [] /\ forallb is_ink w = true.

Section Words.

Lemma split_ws_from_ink s : forall cur,
  cur <> [] \/ has_ink s = true -> split_ws_from cur s <> [].
Proof.
  induction s as [|c s IH]; intros cur H; simpl.
  - destruct H as [H | H]; [|discriminate]. now destruct cur.
  - simpl in H. destruct (is_space c) eqn:E; simpl in H.
    + destruct cur; simpl; [|discriminate].
      apply IH. destruct H as [H | H]; [easy | now right].
    + apply IH. left. now destruct cur.
Qed.

Lemma split_ws_ink s : has_ink s = true -> split_ws s <> [].
Proof. intros H. apply split_ws_from_ink. now right. Qed.

Lemma split_ws_from_word w : forall cur rest,
  forallb is_ink w = true ->
  split_ws_from cur (w ++ rest) = split_ws_from (cur ++ w) rest.
Proof.
  induction w as [|c w IH]; intros cur rest H; simpl.
  - now rewrite app_nil_r.
  - simpl in H. apply andb_true_iff in H as [Hc Hw].
    unfold is_ink in Hc. apply negb_true_iff in Hc. rewrite Hc.
    rewrite IH by exact Hw. now rewrite <- app_assoc.
Qed.

(** Splitting what [" ".join] made of words gives the words back. *)
Lemma split_ws_join ws :
  Forall word ws -> split_ws (join (lit " ") ws) = ws.
Proof.
  unfold split_ws. induction ws as [|x rest IH]; intros H; [reflexivity|].
  inversion H as [|? ? [Hne Hx] Hrest]; subst.
  destruct rest as [|y rest].
  - simpl. rewrite <- (app_nil_r x) at 1.
    rewrite split_ws_from_word by exact Hx. simpl. now destruct x.
  - change (join (lit " ") (x :: y :: rest))
      with (x ++ space :: join (lit " ") (y :: rest)).
    rewrite split_ws_from_word by exact Hx. simpl.
    destruct x; [easy|]. simpl. f_equal. now apply IH.
Qed.

Lemma split_ws_from_words s : forall cur,
  forallb is_ink cur = true -> Forall word (split_ws_from cur s).
Proof.
  induction s as [|c s IH]; intros cur Hcur; simpl.
  - destruct cur; simpl; [constructor|]. now repeat constructor.
  - destruct (is_space c) eqn:E.
    + destruct cur; simpl; [now apply IH|].
      constructor; [now split | now apply IH].
    + apply IH. rewrite forallb_app, Hcur. simpl. unfold is_ink. now rewrite E.
Qed.

Lemma split_ws_words s : Forall word (split_ws s).
Proof. now apply split_ws_from_words. Qed.

End Words.

(** X9: with an API key that is not empty and a text that is not all
    whitespace, the [try] block of [_summarize_text] (the import, the
    chat completion and the reading of its answer) either gives the
    content of the answer, and the function returns it trimmed, or
    raises, and then the function returns exactly what it returns
    without a key: the failure is never seen. *)
Theorem summarize_key_answer_or_fallback text key target_words (w : world) :
  has_ink text = true -> key <> [] ->
  run w (_summarize_text text (Some key) target_words)
  = match w _ (ChatCompletion key (prompt_of text target_words)) with
    | Some content => strip content
    | None => run w (_summarize_text text None target_words)
    end.
Proof.
  intros Hink Hkey. unfold _summarize_text.
  pose proof (split_ws_ink _ Hink) as Hw.
  destruct (split_ws text) as [|x ws]; [easy|].
  destruct key as [|k key]; [easy|]. simpl.
  now destruct (w _ (ChatCompletion (k :: key) (prompt_of text target_words))).
Qed.

Lemma summarize_key_answer_or_fallback_witness :
  has_ink (lit "a b c") = true /\ lit "sk" <> []
  /\ run offline (_summarize_text (lit "a b c") (Some (lit "sk")) 2)
     = lit "a b"
  /\ run (serving ([], [], []) (Some (lit " An overview. ")))
         (_summarize_text (lit "a b c") (Some (lit "sk")) 2)
     = lit "An overview.".
Proof.
  split; [reflexivity|]. split; [discriminate|]. split.
  - exact (@summarize_key_answer_or_fallback (lit "a b c") (lit "sk") 2
             offline eq_refl ltac:(discriminate)).
  - exact (@summarize_key_answer_or_fallback (lit "a b c") (lit "sk") 2
             (serving ([], [], []) (Some (lit " An overview. ")))
             eq_refl ltac:(discriminate)).
Defined.

(** X10: without an API key and for [target_words >= 0], the summary
    read back as whitespace-delimited words is exactly the first
    [target_words] words of the text; so it has at most [target_words]
    words. *)
Theorem summarize_fallback_words text target_words w :
  (0 <= target_words)%Z ->
  split_ws (run w (_summarize_text text None target_words))
  = firstn (Z.to_nat target_words) (split_ws text)
  /\ length (split_ws (run w (_summarize_text text None target_words)))
     <= Z.to_nat target_words.
Proof.
  intros Hk.
  assert (E : split_ws (run w (_summarize_text text None target_words))
              = firstn (Z.to_nat target_words) (split_ws text)).
  { unfold _summarize_text.
    pose proof (split_ws_words text) as Hw.
    destruct (split_ws text) as [|x ws] eqn:Ew.
    - now rewrite firstn_nil.
    - simpl run. rewrite slice_to_firstn by exact Hk.
      apply split_ws_join. apply (Forall_cut (Z.to_nat target_words) Hw). }
  split; [exact E|]. rewrite E. apply firstn_le_length.
Qed.

Lemma summarize_fallback_words_witness :
  (0 <= 2)%Z
  /\ split_ws (run offline (_summarize_text (lit "  a  b c ") None 2))
     = [lit "a"; lit "b"].
Proof.
  split; [lia|].
  exact (proj1 (@summarize_fallback_words (lit "  a  b c ") 2 offline
                  ltac:(lia))).
Defined.

(** ** More on [generate_thread] *)

Section ThreadFacts.

Lemma format_tweets_length parts chosen_title max_tweets :
  length (format_tweets parts chosen_title max_tweets) = length parts.
Proof. now rewrite format_tweets_map, length_map, enumerate_length. Qed.

Lemma in_range_test max_tweets :
  (3 <= max_tweets <= 20)%Z ->
  ((max_tweets <? 3) || (20 <? max_tweets))%Z = false.
Proof. intros H. apply orb_false_iff. split; apply Z.ltb_ge; lia. Qed.

Lemma summarize_calls_bound text key target_words (w : world) :
  calls w (_summarize_text text key target_words) = []
  \/ exists k, key = Some k /\ k <> []
               /\ calls w (_summarize_text text key target_words)
                  = [Made (ChatCompletion k (prompt_of text target_words))].
Proof.
  unfold _summarize_text. destruct (split_ws text) as [|x ws]; [now left|].
  destruct key as [[|c k]|]; [now left | | now left].
  right. exists (c :: k). split; [reflexivity|]. split; [discriminate|].
  simpl. now destruct (w _ _).
Qed.

End ThreadFacts.

(** X11: for [max_tweets] between 3 and 20, when the page fetch
    succeeds, [generate_thread] raises nothing and returns exactly
    [max_tweets] tweets, whatever the page holds and whatever the chat
    completion answers. *)
Theorem generate_thread_count
        url openai_api_key title max_tweets (w : world) page :
  (3 <= max_tweets <= 20)%Z ->
  w _ (FetchContent url) = inr page ->
  exists tweets,
    run w (generate_thread url openai_api_key title max_tweets) = inr tweets
    /\ Z.of_nat (length tweets) = max_tweets.
Proof.
  intros Hr Hf. unfold generate_thread. rewrite (in_range_test Hr).
  simpl. rewrite Hf. destruct page as [[page_title description] content].
  rewrite run_bind.
  destruct (chunk_text_total
              (run w (_summarize_text
                        (if truthy content then content else description)
                        openai_api_key 300))
              max_tweets) as (parts & Hc & Hl).
  rewrite Hc. simpl. eexists. split; [reflexivity|].
  rewrite format_tweets_length. apply Hl. lia.
Qed.

Lemma generate_thread_count_witness :
  (3 <= 4 <= 20)%Z
  /\ exists tweets,
      run (serving (lit "T", lit "d", lit "One. Two. Three.") None)
          (generate_thread (lit "u") None None 4) = inr tweets
      /\ Z.of_nat (length tweets) = 4%Z.
Proof.
  split; [lia|].
  exact (@generate_thread_count (lit "u") None None 4
           (serving (lit "T", lit "d", lit "One. Two. Three.") None)
           (lit "T", lit "d", lit "One. Two. Three.") ltac:(lia) eq_refl).
Defined.

(** X12: for [max_tweets] between 3 and 20, when the page fetch fails,
    [generate_thread] lets that failure through and does nothing else:
    the fetch is its only call, even with an API key. *)
Theorem generate_thread_fetch_failure
        url openai_api_key title max_tweets (w : world) exc :
  (3 <= max_tweets <= 20)%Z ->
  w _ (FetchContent url) = inl exc ->
  run w (generate_thread url openai_api_key title max_tweets)
  = inl exc
  /\ calls w (generate_thread url openai_api_key title max_tweets)
     = [Made (FetchContent url)].
Proof.
  intros Hr Hf. unfold generate_thread. rewrite (in_range_test Hr).
  simpl. rewrite Hf. now split.
Qed.

Lemma generate_thread_fetch_failure_witness :
  (3 <= 10 <= 20)%Z
  /\ run offline (generate_thread (lit "u") (Some (lit "sk")) None 10)
     = inl (FetchError "connection refused").
Proof.
  split; [lia|].
  exact (proj1 (@generate_thread_fetch_failure (lit "u") (Some (lit "sk")) None
                  10 offline (FetchError "connection refused")
                  ltac:(lia) eq_refl)).
Defined.

(** X13: for [max_tweets] between 3 and 20, [generate_thread] first
    fetches the page and makes at most one more call, a chat completion
    with the given API key; without a key, or with an empty one, the
    fetch is the only call. *)
Theorem generate_thread_calls
        url openai_api_key title max_tweets (w : world) :
  (3 <= max_tweets <= 20)%Z ->
  exists rest,
    calls w (generate_thread url openai_api_key title max_tweets)
    = Made (FetchContent url) :: rest
    /\ (rest = []
        \/ exists key prompt,
            openai_api_key = Some key /\ key <> []
            /\ rest = [Made (ChatCompletion key prompt)])
    /\ (openai_api_key = None \/ openai_api_key = Some [] -> rest = []).
Proof.
  intros Hr. unfold generate_thread. rewrite (in_range_test Hr). simpl.
  destruct (w _ (FetchContent url))
    as [detail | [[page_title description] content]].
  - exists []. repeat split; now left.
  - rewrite calls_bind.
    set (base := if truthy content then content else description).
    assert (Hend : forall summary,
               calls w (match _chunk_text summary max_tweets with
                        | inl e => Ret (inl e)
                        | inr parts =>
                            Ret (inr (format_tweets parts
                                        (or_else title
                                           (or_else (Some page_title) url))
                                        max_tweets))
                        end) = []).
    { intros summary. now destruct (_chunk_text summary max_tweets). }
    rewrite Hend, app_nil_r.
    eexists. split; [reflexivity|].
    destruct (summarize_calls_bound base openai_api_key 300 w)
      as [H | (k & Hk & Hne & H)]; rewrite H.
    + split; [now left | easy].
    + split.
      * right. now exists k, (prompt_of base 300).
      * intros [Hn | Hn]; rewrite Hn in Hk; [discriminate|].
        injection Hk as <-. contradiction.
Qed.

Lemma generate_thread_calls_witness :
  (3 <= 3 <= 20)%Z
  /\ exists rest,
      calls (serving (lit "T", lit "d", lit "One. Two.") None)
            (generate_thread (lit "u") None None 3)
      = Made (FetchContent (lit "u")) :: rest
      /\ rest = [].
Proof.
  split; [lia|].
  destruct (@generate_thread_calls (lit "u") None None 3
              (serving (lit "T", lit "d", lit "One. Two.") None)
              ltac:(lia)) as (rest & E & _ & H).
  exists rest. split; [exact E | apply H; now left].
Defined.

(** X14: for [max_tweets] between 3 and 20, when the fetched page has
    no text (its paragraphs, or its description when there is no
    paragraph, hold nothing but whitespace), [generate_thread] makes no
    chat completion call even with an API key and returns [max_tweets]
    tweets that are bare headers: tweet [i >= 2] is exactly the header
    of [i]. *)
Theorem generate_thread_blank_page
        url openai_api_key title max_tweets (w : world)
        page_title description content :
  (3 <= max_tweets <= 20)%Z ->
  w _ (FetchContent url) = inr (page_title, description, content) ->
  has_ink (if truthy content then content else description) = false ->
  calls w (generate_thread url openai_api_key title max_tweets)
  = [Made (FetchContent url)]
  /\ exists tweets,
      run w (generate_thread url openai_api_key title max_tweets) = inr tweets
      /\ Z.of_nat (length tweets) = max_tweets
      /\ forall i, 2 <= i -> (Z.of_nat i <= max_tweets)%Z ->
                   nth_error tweets (i - 1) = Some (header max_tweets i).
Proof.
  intros Hr Hf Hblank. unfold generate_thread. rewrite (in_range_test Hr).
  cbn [bind trigger run calls]. rewrite Hf.
  assert (Hs : _summarize_text (if truthy content then content else description)
                               openai_api_key 300 = Ret []).
  { unfold _summarize_text. now rewrite (split_ws_blank _ Hblank). }
  rewrite Hs. cbn [bind].
  rewrite (@chunk_text_blank [] max_tweets eq_refl). cbn [run calls].
  split; [reflexivity|]. eexists. split; [reflexivity|].
  unfold times. split.
  - rewrite format_tweets_length, repeat_length. lia.
  - intros i Hi Hn. rewrite format_tweets_map, nth_error_map.
    match goal with
    | |- context [enumerate 1 ?l] =>
        assert (Hnth : nth_error l (i - 1) = Some [])
          by (apply nth_error_repeat; lia);
        rewrite (@enumerate_nth_error pstr l 1 (i - 1) [] Hnth)
    end. simpl.
    replace (S (i - 1)) with i by lia. unfold tweet.
    replace (i =? 1) with false by (symmetry; apply Nat.eqb_neq; lia).
    now rewrite app_nil_r.
Qed.

Lemma generate_thread_blank_page_witness :
  (3 <= 3 <= 20)%Z
  /\ calls (serving (lit "T", lit " ", []) (Some (lit "ignored")))
           (generate_thread (lit "u") (Some (lit "sk")) None 3)
     = [Made (FetchContent (lit "u"))].
Proof.
  split; [lia|].
  exact (proj1 (@generate_thread_blank_page (lit "u") (Some (lit "sk")) None 3
                  (serving (lit "T", lit " ", []) (Some (lit "ignored")))
                  (lit "T") (lit " ") [] ltac:(lia) eq_refl eq_refl)).
Defined.

(** ** The command line: [cli.main] *)

Module Cli.

(** The namespace that [parse_args] returns. *)
Record Namespace : Type := {
  url : pstr;
  output : option pstr;
  title : option pstr;
  openai_api_key : option pstr;
  max_tweets : Z
}.

(** What [main] does to the outside, in order: a line printed on
    standard output, a line printed on standard error, a file written. *)
Inductive effect : Type :=
| Stdout (line : pstr)
| Stderr (line : pstr)
| Written (path content : pstr).

(** [str(exc)]. *)
Definition exn_text (e : exn) : pstr :=
  match e with
  | ValueError msg => lit msg
  | FetchError detail => lit detail
  end.

(** [if args.output:]. *)
Definition given (o : option pstr) : option pstr :=
  match o with
  | Some path => if truthy path then Some path else None
  | None => None
  end.

(** [main] from [args = parse_args(argv)] on: the exit status and the
    effects. [disk path content] is what writing [content] to [path]
    does: nothing to report, or the text of the exception raised. *)
Definition main (w : world) (disk : pstr -> pstr -> option string)
           (args : Namespace) : Z * list effect :=
  match run w (generate_thread (url args) (openai_api_key args)
                               (title args) (max_tweets args)) with
  | inl exc =>
      (1%Z, [Stderr (lit "Error generating thread: " ++ exn_text exc)])
  | inr tweets =>
      let content := join [newline; newline] tweets in
      match given (output args) with
      | Some path =>
          match disk path content with
          | None =>
              (0%Z, [Written path content;
                     Stdout (lit "Thread saved to " ++ path)])
          | Some exc =>
              (1%Z, [Stderr (lit "Error writing file: " ++ lit exc)])
          end
      | None => (0%Z, [Stdout content])
      end
  end.

End Cli.
Import Cli.

(** X15: with [max_tweets] outside 3..20, [main] returns 1, prints the
    one line [Error generating thread: max_tweets must be between 3 and
    20] on standard error, prints nothing on standard output and writes
    no file, with or without [--output]; no page is fetched. *)
Theorem main_invalid_count w disk args :
  (max_tweets args < 3 \/ max_tweets args > 20)%Z ->
  main w disk args
  = (1%Z,
     [Stderr (lit "Error generating thread: "
              ++ lit "max_tweets must be between 3 and 20")])
  /\ calls w (generate_thread (url args) (openai_api_key args)
                              (title args) (max_tweets args)) = [].
Proof.
  intros H. unfold main, generate_thread.
  replace ((max_tweets args <? 3) || (20 <? max_tweets args))%Z with true.
  - now split.
  - symmetry. apply orb_true_iff.
    destruct H; [left | right]; apply Z.ltb_lt; lia.
Qed.

Lemma main_invalid_count_witness :
  (21 < 3 \/ 21 > 20)%Z
  /\ fst (main offline (fun _ _ => None)
               {| url := lit "u"; output := Some (lit "out.txt");
                  title := None; openai_api_key := None;
                  max_tweets := 21 |}) = 1%Z.
Proof.
  split; [lia|].
  exact (f_equal fst
           (proj1 (@main_invalid_count offline (fun _ _ => None)
                     {| url := lit "u"; output := Some (lit "out.txt");
                        title := None; openai_api_key := None;
                        max_tweets := 21 |} ltac:(right; simpl; lia)))).
Defined.

(** X16: with [max_tweets] between 3 and 20 and a page fetch that
    succeeds, [generate_thread] returns exactly [max_tweets] tweets and
    the text of the thread is these tweets joined by blank lines;
    without [--output] (or with an empty one) [main] prints that text
    and returns 0; with [--output] it writes that text to the file,
    prints [Thread saved to] and the path, and returns 0, or, when
    writing fails, prints only the error on standard error and
    returns 1. *)
Theorem main_success (w : world) disk args page :
  (3 <= max_tweets args <= 20)%Z ->
  w _ (FetchContent (url args)) = inr page ->
  exists tweets,
    run w (generate_thread (url args) (openai_api_key args)
                           (title args) (max_tweets args)) = inr tweets
    /\ Z.of_nat (length tweets) = max_tweets args
    /\ main w disk args
       = match given (output args) with
         | None => (0%Z, [Stdout (join [newline; newline] tweets)])
         | Some path =>
             match disk path (join [newline; newline] tweets) with
             | None =>
                 (0%Z, [Written path (join [newline; newline] tweets);
                        Stdout (lit "Thread saved to " ++ path)])
             | Some exc =>
                 (1%Z, [Stderr (lit "Error writing file: " ++ lit exc)])
             end
         end.
Proof.
  intros Hr Hf. unfold main.
  set (g := run w _).
  assert (Hg : exists tweets, g = inr tweets
                              /\ Z.of_nat (length tweets) = max_tweets args).
  { subst g. unfold generate_thread. rewrite (in_range_test Hr).
    simpl. rewrite Hf. destruct page as [[page_title description] content].
    rewrite run_bind.
    destruct (chunk_text_total
                (run w (_summarize_text
                          (if truthy content then content else description)
                          (openai_api_key args) 300))
                (max_tweets args)) as (parts & Hc & Hl).
    rewrite Hc. simpl. eexists. split; [reflexivity|].
    rewrite format_tweets_length. apply Hl. lia. }
  destruct Hg as (tweets & -> & Hl). exists tweets.
  split; [reflexivity|]. split; [exact Hl | reflexivity].
Qed.

Lemma main_success_witness :
  (3 <= 3 <= 20)%Z
  /\ exists tweets,
      run (serving (lit "T", lit "d", lit "One. Two.") None)
          (generate_thread (lit "u") None None 3) = inr tweets
      /\ Z.of_nat (length tweets) = 3%Z
      /\ main (serving (lit "T", lit "d", lit "One. Two.") None)
              (fun _ _ => None)
              {| url := lit "u"; output := None; title := None;
                 openai_api_key := None; max_tweets := 3 |}
         = (0%Z, [Stdout (join [newline; newline] tweets)]).
Proof.
  split; [lia|].
  exact (@main_success (serving (lit "T", lit "d", lit "One. Two.") None)
           (fun _ _ => None)
           {| url := lit "u"; output := None; title := None;
              openai_api_key := None; max_tweets := 3 |}
           (lit "T", lit "d", lit "One. Two.")
           ltac:(simpl; lia) eq_refl).
Defined.

(** X17: with [max_tweets] between 3 and 20, when the page fetch fails,
    [main] returns 1, prints the one line [Error generating thread:]
    and the text of the failure on standard error, prints nothing on
    standard output and writes no file. *)
Theorem main_fetch_failure (w : world) disk args exc :
  (3 <= max_tweets args <= 20)%Z ->
  w _ (FetchContent (url args)) = inl exc ->
  main w disk args
  = (1%Z, [Stderr (lit "Error generating thread: " ++ exn_text exc)]).
Proof.
  intros Hr Hf. unfold main, generate_thread. rewrite (in_range_test Hr).
  simpl. now rewrite Hf.
Qed.

Lemma main_fetch_failure_witness :
  (3 <= 10 <= 20)%Z
  /\ main offline (fun _ _ => None)
          {| url := lit "u"; output := Some (lit "out.txt"); title := None;
             openai_api_key := None; max_tweets := 10 |}
     = (1%Z, [Stderr (lit "Error generating thread: connection refused")]).
Proof.
  split; [lia|].
  exact (@main_fetch_failure offline (fun _ _ => None)
           {| url := lit "u"; output := Some (lit "out.txt"); title := None;
              openai_api_key := None; max_tweets := 10 |}
           (FetchError "connection refused") ltac:(simpl; lia) eq_refl).
Defined.
